(** * snrv.utils: numerical utilities of the SNRV encoder

    A shallow embedding of [src/snrv/utils.py]:
    [stable_symmetric_inverse], [gen_eig_chol] and
    [accumulate_correlation_matrices].

    Tensors are records carrying their shape and their entries; the
    [torch] operations the module calls are modelled entry by entry,
    raising [RuntimeError] where torch rejects the shapes.  The code is
    written once over a scalar interface and is instantiated at
    binary64 floats (the values torch computes with) and at the integers
    (exact arithmetic, for the algebraic laws, which float rounding only
    satisfies up to tolerance).  The LAPACK-backed primitives
    [torch.linalg.cholesky], [torch.linalg.inv] and [torch.linalg.eigh]
    are parameters of the functions that call them. *)

From Stdlib Require Import String Floats.
From Stdlib Require Import List Arith PeanoNat ZArith Lia Bool.
From Stdlib Require QArith Qcanon.
Import ListNotations.

Set Implicit Arguments.
Set Warnings "-inexact-float".

(** ** Exceptions and the error monad *)

Inductive exn : Type :=
| AssertionError
| RuntimeError (msg : string)
| ValueError (msg : string).

Inductive result (A : Type) : Type :=
| Ok (a : A)
| Raise (e : exn).

Arguments Ok {A} a.
Arguments Raise {A} e.

Definition bind {A B : Type} (r : result A) (k : A -> result B) : result B :=
  match r with
  | Ok a => k a
  | Raise e => Raise e
  end.

Notation "x <- r ;; k" := (bind r (fun x => k))
  (at level 61, r at next level, right associativity).
Notation "' p <- r ;; k" := (bind r (fun x => let p := x in k))
  (at level 61, p pattern, r at next level, right associativity).

(** Python's [assert b]. *)
Definition assert (b : bool) : result unit :=
  if b then Ok tt else Raise AssertionError.

Notation "'assert!' b ;; k" := (bind (assert b) (fun _ => k))
  (at level 61, b at next level, right associativity).

(** ** Scalars *)

Class Scalar (T : Type) : Type := {
  zero : T;
  one : T;
  add : T -> T -> T;
  mul : T -> T -> T;
  le : T -> T -> Prop
}.

Declare Scope scalar_scope.
Delimit Scope scalar_scope with S.
Infix "+" := add : scalar_scope.
Infix "*" := mul : scalar_scope.
Infix "<=" := le : scalar_scope.

(** Exact arithmetic: the laws of a commutative semiring. *)
Class ExactScalar (T : Type) {ST : Scalar T} : Prop := {
  add_comm : forall x y : T, (x + y = y + x)%S;
  add_assoc : forall x y z : T, (x + (y + z) = (x + y) + z)%S;
  add_zero_l : forall x : T, (zero + x = x)%S;
  mul_comm : forall x y : T, (x * y = y * x)%S;
  mul_assoc : forall x y z : T, (x * (y * z) = (x * y) * z)%S;
  mul_one_l : forall x : T, (one * x = x)%S;
  mul_zero_l : forall x : T, (zero * x = zero)%S;
  mul_add_distr_l : forall x y z : T, (x * (y + z) = x * y + x * z)%S
}.

Arguments ExactScalar T {ST}.

#[export] Instance Z_Scalar : Scalar Z :=
  {| zero := 0%Z; one := 1%Z; add := Z.add; mul := Z.mul; le := Z.le |}.

#[export] Instance Z_ExactScalar : ExactScalar Z.
Proof. constructor; intros; cbv [add mul zero one Z_Scalar]; lia. Qed.

#[export] Instance float_Scalar : Scalar float :=
  {| zero := 0%float; one := 1%float; add := PrimFloat.add;
     mul := PrimFloat.mul; le := fun x y => PrimFloat.leb x y = true |}.

(** ** Tensors *)

(** A 2-D tensor: its shape and its rows.  A 1-D tensor is a list. *)
Record tensor (T : Type) : Type := mkTensor {
  rows : nat;
  cols : nat;
  data : list (list T)
}.

Definition vec (T : Type) : Type := list T.

Section Tensors.
Context {T : Type} {ST : Scalar T}.

Definition vget (v : vec T) (i : nat) : T := nth i v zero.

Definition get (A : tensor T) (i j : nat) : T := vget (nth i (data A) []) j.

Definition vbuild (n : nat) (f : nat -> T) : vec T := map f (seq 0 n).

Definition build (m n : nat) (f : nat -> nat -> T) : tensor T :=
  mkTensor m n (map (fun i => vbuild n (f i)) (seq 0 m)).

(** The data of a tensor agrees with its shape. *)
Definition wf (A : tensor T) : Prop :=
  length (data A) = rows A /\ Forall (fun r => length r = cols A) (data A).

(** Same shape, same entries. *)
Definition teq (A B : tensor T) : Prop :=
  rows A = rows B /\ cols A = cols B /\
  forall i j, i < rows A -> j < cols A -> get A i j = get B i j.

(** [sum n f] is f 0 + ... + f (n-1), accumulated from the left; the
    inner products of [matmul] are such sums. *)
Fixpoint sum (n : nat) (f : nat -> T) : T :=
  match n with
  | O => zero
  | S k => (sum k f + f k)%S
  end.

End Tensors.

(** ** The torch operations used by the module *)

Module torch.
Section Ops.
Context {T : Type} {ST : Scalar T}.

(** [A.size()[0]], [A.size()[1]]. *)
Definition size0 (A : tensor T) : nat := rows A.
Definition size1 (A : tensor T) : nat := cols A.

(** [A.t()] *)
Definition t (A : tensor T) : tensor T :=
  build (cols A) (rows A) (fun i j => get A j i).

(** The product of an m x k and a k x n matrix. *)
Definition mm (A B : tensor T) : tensor T :=
  build (rows A) (cols B)
    (fun i j => sum (cols A) (fun k => (get A i k * get B k j)%S)).

(** [torch.matmul(A, B)] on 2-D tensors. *)
Definition matmul (A B : tensor T) : result (tensor T) :=
  if cols A =? rows B then Ok (mm A B)
  else Raise (RuntimeError "mat1 and mat2 shapes cannot be multiplied").

(** [torch.reshape(p, (-1, 1))] of a 1-D tensor. *)
Definition reshape_col (p : vec T) : tensor T :=
  build (length p) 1 (fun i _ => vget p i).

(** [torch.tile(A, (r, c))] *)
Definition tile (A : tensor T) (r c : nat) : tensor T :=
  build (rows A * r) (cols A * c)
    (fun i j => get A (i mod rows A) (j mod cols A)).

(** Broadcasting of one dimension: equal sizes, or one of them 1. *)
Definition broadcast_dim (a b : nat) : option nat :=
  if a =? b then Some a
  else if a =? 1 then Some b
  else if b =? 1 then Some a
  else None.

(** The index read in a dimension of size [d] that may be broadcast. *)
Definition bidx (d i : nat) : nat := if d =? 1 then 0 else i.

Definition bget (A : tensor T) (i j : nat) : T :=
  get A (bidx (rows A) i) (bidx (cols A) j).

(** [torch.multiply(A, B)]: element-wise, with broadcasting. *)
Definition multiply (A B : tensor T) : result (tensor T) :=
  match broadcast_dim (rows A) (rows B), broadcast_dim (cols A) (cols B) with
  | Some m, Some n => Ok (build m n (fun i j => (bget A i j * bget B i j)%S))
  | _, _ => Raise (RuntimeError "The size of tensor a must match the size of tensor b")
  end.

(** [C += M]: in-place addition; [M] is broadcast to the shape of [C]. *)
Definition iadd (C M : tensor T) : result (tensor T) :=
  if ((rows M =? rows C) || (rows M =? 1)) && ((cols M =? cols C) || (cols M =? 1))
  then Ok (build (rows C) (cols C) (fun i j => (get C i j + bget M i j)%S))
  else Raise (RuntimeError "output with shape doesn't match the broadcast shape").

(** [torch.flip(w, [0])] of a 1-D tensor. *)
Definition flip0 (w : vec T) : vec T := rev w.

(** [torch.flip(v, [1])] of a 2-D tensor: the columns in reverse order. *)
Definition flip1 (v : tensor T) : tensor T :=
  build (rows v) (cols v) (fun i j => get v i (cols v - 1 - j)).

(** [torch.diag(w)] of a 1-D tensor. *)
Definition diag (w : vec T) : tensor T :=
  build (length w) (length w) (fun i j => if i =? j then vget w i else zero).

End Ops.
End torch.

(** ** accumulate_correlation_matrices

    The four accumulators are updated in place and returned; the model
    returns their new values.  The four arguments are distinct tensors. *)

Section Accumulate.
Context {T : Type} {ST : Scalar T}.

Definition accumulate_correlation_matrices
    (z_t0 z_tt : tensor T) (pathweight : vec T) (C00 C01 C10 C11 : tensor T)
  : result (tensor T * tensor T * tensor T * tensor T) :=
  assert! ((torch.size0 z_t0 =? torch.size0 z_tt)
           && (torch.size0 z_tt =? length pathweight)) ;;
  assert! (torch.size1 z_t0 =? torch.size1 z_tt) ;;
  let W := torch.tile (torch.reshape_col pathweight) 1 (torch.size1 z_tt) in
  z_tt_r <- torch.multiply W z_tt ;;
  z_t0_r <- torch.multiply W z_t0 ;;
  M00 <- torch.matmul (torch.t z_t0) z_t0_r ;;
  C00 <- torch.iadd C00 M00 ;;
  M01 <- torch.matmul (torch.t z_t0) z_tt_r ;;
  C01 <- torch.iadd C01 M01 ;;
  M10 <- torch.matmul (torch.t z_tt) z_t0_r ;;
  C10 <- torch.iadd C10 M10 ;;
  M11 <- torch.matmul (torch.t z_tt) z_tt_r ;;
  C11 <- torch.iadd C11 M11 ;;
  Ok (C00, C01, C10, C11).

End Accumulate.

(** ** gen_eig_chol *)

Section GenEigChol.
Context {T : Type} {ST : Scalar T}.

(** [torch.linalg.cholesky], [torch.linalg.inv], [torch.linalg.eigh]. *)
Variable cholesky : tensor T -> result (tensor T).
Variable inv : tensor T -> result (tensor T).
Variable eigh : tensor T -> result (vec T * tensor T).

Definition not_psd_message : string :=
  "Q matrix is not positive semi-definite. Try reducing the learning rate,
             increasing the batch size or asking for fewer CVs (decreasing output_size)".

Definition gen_eig_chol (C Q : tensor T) : result (vec T * tensor T) :=
  L <- match cholesky Q with
       | Raise (RuntimeError _) => Raise (ValueError not_psd_message)
       | r => r
       end ;;
  Linv <- inv L ;;
  LTinv <- inv (torch.t L) ;;
  CLTinv <- torch.matmul C LTinv ;;
  Ctilde <- torch.matmul Linv CLTinv ;;
  ' (w, vtilde) <- eigh Ctilde ;;
  v <- torch.matmul LTinv vtilde ;;
  let w := torch.flip0 w in
  let v := torch.flip1 v in
  Ok (w, v).

(** The calls to the primitives made on [C] and [Q] all return:
    Cholesky gives [L], the two inversions give [Linv] and [LTinv], and
    the eigensolver, run on Ctilde, gives [(w, vtilde)]. *)
Definition primitives_return (C Q L Linv LTinv : tensor T)
    (w : vec T) (vtilde : tensor T) : Prop :=
  cholesky Q = Ok L /\
  inv L = Ok Linv /\
  inv (torch.t L) = Ok LTinv /\
  eigh (torch.mm Linv (torch.mm C LTinv)) = Ok (w, vtilde).

End GenEigChol.

(** [s] occurs in the text [msg]. *)
Definition mentions (msg s : string) : bool :=
  match String.index 0 s msg with
  | Some _ => true
  | None => false
  end.

(** [f i j] holds at every index pair of an m x n tensor. *)
Definition all_entries (m n : nat) (f : nat -> nat -> bool) : bool :=
  forallb (fun i => forallb (fun j => f i j) (seq 0 n)) (seq 0 m).

(** ** stable_symmetric_inverse, on binary64 tensors *)

Module torch64.
Local Open Scope float_scope.

(** [torch.finfo(torch.float32).eps] *)
Definition float32_eps : float := 0x1p-23.

(** [torch.isclose] on one pair of entries:
    equal, or |a - b| finite and at most atol + |rtol * b|. *)
Definition isclose (rtol atol a b : float) : bool :=
  (a =? b) ||
  (is_finite (abs (a - b)) && (abs (a - b) <=? atol + abs (rtol * b))).

(** [torch.allclose(A, B, rtol, atol)], with broadcasting. *)
Definition allclose (A B : tensor float) (rtol atol : float) : result bool :=
  match torch.broadcast_dim (rows A) (rows B),
        torch.broadcast_dim (cols A) (cols B) with
  | Some m, Some n =>
      Ok (all_entries m n
            (fun i j => isclose rtol atol (torch.bget A i j) (torch.bget B i j)))
  | _, _ => Raise (RuntimeError "The size of tensor a must match the size of tensor b")
  end.

(** The default [rtol] of [torch.allclose]. *)
Definition default_rtol : float := 1e-05.

(** [w > c] *)
Definition gt (w : vec float) (c : float) : list bool :=
  map (fun x => c <? x) w.

(** [torch.zeros_like(w)] *)
Definition zeros_like (w : vec float) : vec float := map (fun _ => 0) w.

(** [torch.where(cond, x, y)] on 1-D tensors of one length. *)
Definition where_ (cond : list bool) (x y : vec float) : vec float :=
  map (fun c : bool * (float * float) =>
         if fst c then fst (snd c) else snd (snd c))
      (combine cond (combine x y)).

(** The two exponents the module raises eigenvalues to.  For them
    [torch.pow] is the reciprocal and the reciprocal square root. *)
Inductive exponent : Type := minus_one | minus_half.

Definition pow_scalar (x : float) (p : exponent) : float :=
  match p with
  | minus_one => 1 / x
  | minus_half => 1 / sqrt x
  end.

(** [w ** p] *)
Definition pow (w : vec float) (p : exponent) : vec float :=
  map (fun x => pow_scalar x p) w.

End torch64.

Section StableInverse.
Local Open Scope float_scope.

(** [torch.linalg.eigh] *)
Variable eigh : tensor float -> result (vec float * tensor float).

Definition stable_symmetric_inverse (A : tensor float) (ret_sqrt : bool)
  : result (tensor float) :=
  close <- torch64.allclose A (torch.t A) torch64.default_rtol 1e-6 ;;
  assert! close ;;
  ' (w, V) <- eigh A ;;
  let w := torch64.where_ (torch64.gt w torch64.float32_eps) w
                          (torch64.zeros_like w) in
  if ret_sqrt then
    D <- torch.matmul (torch.diag (torch64.pow w torch64.minus_half)) (torch.t V) ;;
    torch.matmul V D
  else
    D <- torch.matmul (torch.diag (torch64.pow w torch64.minus_one)) (torch.t V) ;;
    torch.matmul V D.

End StableInverse.

(** ** Notions used to state the properties *)

Section SpecNotions.
Context {T : Type} {ST : Scalar T}.

(** The weighted second moment X^T diag(p) Y:
    entry (i, j) is the sum over k of X[k][i] * (p[k] * Y[k][j]). *)
Definition moment (X Y : tensor T) (p : vec T) : tensor T :=
  build (cols X) (cols Y)
    (fun i j => sum (rows X) (fun k => (get X k i * (vget p k * get Y k j))%S)).

(** Entry-wise sum of two tensors of one shape. *)
Definition tadd (C M : tensor T) : tensor T :=
  build (rows C) (cols C) (fun i j => (get C i j + get M i j)%S).

(** [torch.zeros(m, n)] *)
Definition zeros (m n : nat) : tensor T := build m n (fun _ _ => zero).

(** [torch.eye(n)] *)
Definition eye (n : nat) : tensor T :=
  build n n (fun i j => if i =? j then one else zero).

(** Row-wise concatenation, [torch.cat((A, B), 0)]. *)
Definition concat_rows (A B : tensor T) : tensor T :=
  build (rows A + rows B) (cols A)
    (fun i j => if i <? rows A then get A i j else get B (i - rows A) j).

(** An n x n tensor. *)
Definition square (n : nat) (A : tensor T) : Prop :=
  rows A = n /\ cols A = n.

Definition symmetric (A : tensor T) : Prop :=
  rows A = cols A /\
  forall i j, i < rows A -> j < rows A -> get A i j = get A j i.

(** Column j of A, and the product of a matrix and a vector. *)
Definition col (A : tensor T) (j : nat) : vec T :=
  vbuild (rows A) (fun i => get A i j).

Definition matvec (A : tensor T) (x : vec T) : vec T :=
  vbuild (rows A) (fun i => sum (cols A) (fun k => (get A i k * vget x k)%S)).

Definition vscale (c : T) (x : vec T) : vec T := map (mul c) x.

(** Entries in non-descending, non-ascending order. *)
Definition ascending (w : vec T) : Prop :=
  forall i j, i <= j -> j < length w -> (vget w i <= vget w j)%S.

Definition non_ascending (w : vec T) : Prop :=
  forall i j, i <= j -> j < length w -> (vget w j <= vget w i)%S.

(** What the linear-algebra primitives promise about their results:
    [L] is a Cholesky factor of [Q]; [Mi] is the inverse of [M];
    the columns of [V] are eigenvectors of [A] for the eigenvalues [w],
    listed in ascending order. *)
Definition is_cholesky_factor (Q L : tensor T) : Prop :=
  teq (torch.mm L (torch.t L)) Q.

Definition is_inverse (M Mi : tensor T) : Prop :=
  torch.mm Mi M = eye (rows M) /\ torch.mm M Mi = eye (rows M).

Definition is_eigendecomposition (A : tensor T) (w : vec T) (V : tensor T)
  : Prop :=
  torch.mm A V = torch.mm V (torch.diag w) /\ ascending w.

(** The quadratic form x^T Q x, and positive definiteness. *)
Definition quad_form (Q : tensor T) (x : vec T) : T :=
  sum (rows Q) (fun i =>
    (vget x i * sum (cols Q) (fun j => (get Q i j * vget x j)%S))%S).

Definition positive_definite (Q : tensor T) : Prop :=
  forall x : vec T,
    length x = rows Q -> (exists i, i < rows Q /\ vget x i <> zero) ->
    ~ (quad_form Q x <= zero)%S.

End SpecNotions.

(** ** Concrete batches *)

Module Examples.

(** Two observations of two components, their time-lagged partners, and
    pathweights that are not all one. *)
Definition z_t0 : tensor Z := mkTensor 2 2 [[1; 2]; [3; 4]]%Z.
Definition z_tt : tensor Z := mkTensor 2 2 [[5; 6]; [7; 8]]%Z.
Definition pathweight : vec Z := [2; 3]%Z.

(** A second batch, of one observation. *)
Definition z_t0_b : tensor Z := mkTensor 1 2 [[1; -1]]%Z.
Definition z_tt_b : tensor Z := mkTensor 1 2 [[0; 2]]%Z.
Definition pathweight_b : vec Z := [5]%Z.

(** Accumulators holding earlier partial sums. *)
Definition C00 : tensor Z := mkTensor 2 2 [[1; 0]; [0; 1]]%Z.
Definition C01 : tensor Z := mkTensor 2 2 [[0; 3]; [4; 0]]%Z.
Definition C10 : tensor Z := mkTensor 2 2 [[0; 4]; [3; 0]]%Z.
Definition C11 : tensor Z := mkTensor 2 2 [[2; 0]; [0; 2]]%Z.

(** An empty batch of two components. *)
Definition z_empty : tensor Z := mkTensor 0 2 [].

(** The first batch as binary64 tensors. *)
Definition z_t0_f : tensor float := mkTensor 2 2 [[1; 2]; [3; 4]]%float.
Definition z_tt_f : tensor float := mkTensor 2 2 [[5; 6]; [7; 8]]%float.
Definition pathweight_f : vec float := [2; 3]%float.

(** [pathweight] is identically one. *)
Definition all_ones (p : vec float) : bool :=
  forallb (fun x => PrimFloat.eqb x 1%float) p.

End Examples.

(** ** Exact primitives on the integers

    Implementations of the three primitives that are exact where they
    answer and raise elsewhere: Cholesky and inversion answer on the
    identity matrix, the eigensolver on matrices whose lower triangle is
    diagonal with ascending diagonal entries (like torch, it reads only the
    lower triangle). *)

Module IntegerPrimitives.

Definition is_eye (M : tensor Z) : bool :=
  (rows M =? cols M) &&
  all_entries (rows M) (rows M)
    (fun i j => Z.eqb (get M i j) (if i =? j then 1%Z else 0%Z)).

Definition cholesky (Q : tensor Z) : result (tensor Z) :=
  if is_eye Q then Ok (eye (rows Q))
  else Raise (RuntimeError "linalg.cholesky: the input is not positive-definite").

Definition inv (M : tensor Z) : result (tensor Z) :=
  if is_eye M then Ok (eye (rows M))
  else Raise (RuntimeError "linalg.inv: no exact integer inverse").

Definition diagonal (A : tensor Z) : vec Z :=
  vbuild (rows A) (fun i => get A i i).

Definition lower_is_diagonal (A : tensor Z) : bool :=
  all_entries (rows A) (rows A)
    (fun i j => if j <? i then Z.eqb (get A i j) 0%Z else true).

Definition ascending_b (w : vec Z) : bool :=
  all_entries (length w) (length w)
    (fun i j => if i <=? j then Z.leb (vget w i) (vget w j) else true).

Definition eigh (A : tensor Z) : result (vec Z * tensor Z) :=
  if (rows A =? cols A) && lower_is_diagonal A && ascending_b (diagonal A)
  then Ok (diagonal A, eye (rows A))
  else Raise (RuntimeError "linalg.eigh: the algorithm failed to converge").

(** A metric, a symmetric and a non-symmetric data matrix, and a
    rank-deficient outer product. *)
Definition Q_id : tensor Z := mkTensor 2 2 [[1; 0]; [0; 1]]%Z.
Definition C_sym : tensor Z := mkTensor 2 2 [[2; 0]; [0; 7]]%Z.
Definition C_nonsym : tensor Z := mkTensor 2 2 [[2; 9]; [0; 7]]%Z.
Definition Q_outer : tensor Z := mkTensor 2 2 [[1; 1]; [1; 1]]%Z.

End IntegerPrimitives.

(** ** Binary64 inputs of stable_symmetric_inverse *)

Module Float64Examples.
Local Open Scope float_scope.

(** A singular symmetric matrix, the 1 x 1 zero matrix, and a matrix whose
    off-diagonal entries differ by 0.001. *)
Definition A_singular : tensor float := mkTensor 2 2 [[1; 0]; [0; 0]].
Definition A_zero : tensor float := mkTensor 1 1 [[0]].
Definition A_skewed : tensor float := mkTensor 2 2 [[0; 1000]; [1000.001; 0]].

Definition tensor_eqb (A B : tensor float) : bool :=
  (rows A =? rows B)%nat && (cols A =? cols B)%nat &&
  all_entries (rows A) (cols A) (fun i j => get A i j =? get B i j).

(** An eigensolver defined on these three matrices: eigenvalues in
    ascending order, unit eigenvectors as columns (computed from the lower
    triangle, rounded to binary64). *)
Definition eigh_table (A : tensor float) : result (vec float * tensor float) :=
  if tensor_eqb A A_singular then
    Ok ([0; 1], mkTensor 2 2 [[0; 1]; [1; 0]])
  else if tensor_eqb A A_zero then
    Ok ([0], mkTensor 1 1 [[1]])
  else if tensor_eqb A A_skewed then
    Ok ([-1000.001; 1000.001],
        mkTensor 2 2 [[-0.7071067811865476; 0.7071067811865476];
                      [0.7071067811865476; 0.7071067811865476]])
  else Raise (RuntimeError "linalg.eigh: input not in the table").

(** Every entry is a finite number (neither NaN nor infinite). *)
Definition all_finite (B : tensor float) : bool :=
  forallb (fun row => forallb is_finite row) (data B).

(** The symmetry test with a purely absolute tolerance:
    every |A[i][j] - A[j][i]| is at most 1e-6. *)
Definition symmetric_within_atol (A : tensor float) : bool :=
  all_entries (rows A) (cols A)
    (fun i j => abs (get A i j - get A j i) <=? 1e-6).

End Float64Examples.

(** ** Further notions: increments an accumulator accepts *)

(** [C += M] with an n x n increment [M] is accepted by torch when each
    dimension of [C] is n, or n is 1 (the increment is then broadcast). *)
Definition accepts_increment {T : Type} (n : nat) (C : tensor T) : bool :=
  ((n =? rows C) || (n =? 1)) && ((n =? cols C) || (n =? 1)).

(** ** Standardize

    Scalars with subtraction and division, the element-wise arithmetic of
    torch with broadcasting, and the Standardize layer. *)

Class Field (T : Type) {ST : Scalar T} : Type := {
  ssub : T -> T -> T;
  sdiv : T -> T -> T
}.

Arguments Field T {ST}.

Infix "-" := ssub : scalar_scope.
Infix "/" := sdiv : scalar_scope.

(** Exact arithmetic: subtraction and division undo addition and
    multiplication. *)
Class ExactField (T : Type) {ST : Scalar T} {FT : Field T} : Prop := {
  sub_add : forall x y : T, ((x - y) + y = x)%S;
  sub_diag : forall x : T, (x - x = zero)%S;
  div_mul : forall x y : T, y <> zero -> ((x / y) * y = x)%S;
  div_zero_l : forall y : T, y <> zero -> (zero / y = zero)%S
}.

Arguments ExactField T {ST FT}.

#[export] Instance float_Field : Field float :=
  {| ssub := PrimFloat.sub; sdiv := PrimFloat.div |}.

Module ExactRationals.
Import QArith Qcanon.

#[global] Instance Qc_Scalar : Scalar Qc :=
  {| zero := 0%Qc; one := 1%Qc; add := Qcplus; mul := Qcmult; le := Qcle |}.

#[global] Instance Qc_Field : Field Qc :=
  {| ssub := Qcminus; sdiv := Qcdiv |}.

#[global] Instance Qc_ExactScalar : ExactScalar Qc.
Proof. constructor; intros; cbv [add mul zero one Qc_Scalar]; ring. Qed.

#[global] Instance Qc_ExactField : ExactField Qc.
Proof.
  constructor; intros;
    cbv [add mul zero one ssub sdiv Qc_Scalar Qc_Field] in *;
    first [ring | now field].
Qed.

End ExactRationals.

Module torch_ew.
Section Ops.
Context {T : Type} {ST : Scalar T} {FT : Field T}.

(** An element-wise binary operation, with broadcasting. *)
Definition elementwise (op : T -> T -> T) (A B : tensor T)
  : result (tensor T) :=
  match torch.broadcast_dim (rows A) (rows B),
        torch.broadcast_dim (cols A) (cols B) with
  | Some m, Some n =>
      Ok (build m n (fun i j => op (torch.bget A i j) (torch.bget B i j)))
  | _, _ => Raise (RuntimeError "The size of tensor a must match the size of tensor b")
  end.

(** [A - B], [A + B], [A / B] *)
Definition sub : tensor T -> tensor T -> result (tensor T) := elementwise ssub.
Definition add : tensor T -> tensor T -> result (tensor T) := elementwise (fun x y => (x + y)%S).
Definition div : tensor T -> tensor T -> result (tensor T) := elementwise sdiv.

(** [torch.ones_like(A)] *)
Definition ones_like (A : tensor T) : tensor T :=
  build (rows A) (cols A) (fun _ _ => one).

(** [A * c] for a Python number [c] *)
Definition mul_scalar (A : tensor T) (c : T) : tensor T :=
  build (rows A) (cols A) (fun i j => (get A i j * c)%S).

End Ops.
End torch_ew.

(** The three buffers of the layer.  A 1-D buffer of length d is held as
    the 1 x d tensor it is broadcast as. *)
Record Standardize (T : Type) : Type := mkStandardize {
  mean : tensor T;
  stddev : tensor T;
  eps : tensor T
}.

Section StandardizeLayer.
Context {T : Type} {ST : Scalar T} {FT : Field T}.

(** [Standardize.__init__(mean, stddev, eps)] *)
Definition Standardize_init (mean stddev : tensor T) (eps : T)
  : Standardize T :=
  mkStandardize mean stddev
    (torch_ew.mul_scalar (torch_ew.ones_like stddev) eps).

(** [Standardize.forward(x)] *)
Definition forward (self : Standardize T) (x : tensor T)
  : result (tensor T) :=
  d <- torch_ew.sub x (mean self) ;;
  s <- torch_ew.add (stddev self) (eps self) ;;
  torch_ew.div d s.

End StandardizeLayer.

(** The default [eps] of the layer. *)
Definition Standardize_default_eps : float := 1e-9%float.

(** ** Further concrete inputs *)

Module MoreExamples.

(** Pathweights identically one, and identically zero. *)
Definition ones2 : vec Z := [1; 1]%Z.
Definition zeros2 : vec Z := [0; 0]%Z.

(** An accumulator of the wrong shape. *)
Definition C_3x3 : tensor Z := mkTensor 3 3 [[0; 0; 0]; [0; 0; 0]; [0; 0; 0]]%Z.

(** A data matrix with descending diagonal, on which the integer
    eigensolver gives up, and one with three columns. *)
Definition C_descending : tensor Z := mkTensor 2 2 [[7; 0]; [0; 2]]%Z.
Definition C_2x3 : tensor Z := mkTensor 2 3 [[1; 2; 3]; [4; 5; 6]]%Z.

(** Binary64 inputs: a matrix with a NaN entry, and a 2 x 3 matrix. *)
Definition A_nan : tensor float := mkTensor 2 2 [[1; nan]; [nan; 1]]%float.
Definition A_2x3 : tensor float := mkTensor 2 3 [[1; 2; 3]; [4; 5; 6]]%float.

(** Statistics of two features and a batch of two observations, as exact
    rationals; and a binary64 batch of three features. *)
Definition q (n : Z) (d : positive) : Qcanon.Qc :=
  Qcanon.Q2Qc (QArith_base.Qmake n d).
Definition mean_q : tensor Qcanon.Qc := mkTensor 1 2 [[q 1 1; q 2 1]].
Definition stddev_q : tensor Qcanon.Qc := mkTensor 1 2 [[q 1 2; q 0 1]].
Definition eps_q : Qcanon.Qc := q 1 1000.
Definition x_q : tensor Qcanon.Qc :=
  mkTensor 2 2 [[q 3 1; q 5 2]; [q (-1) 1; q 2 1]].
Definition x_mean_q : tensor Qcanon.Qc :=
  mkTensor 2 2 [[q 1 1; q 2 1]; [q 1 1; q 2 1]].
Definition layer_f : Standardize float :=
  Standardize_init (mkTensor 1 2 [[1; 2]]%float) (mkTensor 1 2 [[1; 1]]%float)
    Standardize_default_eps.

End MoreExamples.

(** * Facts about tensors *)

Section TensorFacts.
Context {T : Type} {ST : Scalar T}.

Lemma nth_map_seq (A : Type) (g : nat -> A) (m i : nat) (d : A) :
  i < m -> nth i (map g (seq 0 m)) d = g i.
Proof.
  intros Hi.
  rewrite nth_indep with (d' := g 0) by now rewrite length_map, length_seq.
  rewrite map_nth, seq_nth; auto.
Qed.

Lemma length_vbuild (n : nat) (f : nat -> T) : length (vbuild n f) = n.
Proof. unfold vbuild. now rewrite length_map, length_seq. Qed.

Lemma vget_vbuild (n : nat) (f : nat -> T) (i : nat) :
  i < n -> vget (vbuild n f) i = f i.
Proof.
  intros Hi. unfold vget, vbuild. now apply nth_map_seq.
Qed.

Lemma vbuild_ext (n : nat) (f g : nat -> T) :
  (forall i, i < n -> f i = g i) -> vbuild n f = vbuild n g.
Proof.
  intros H. unfold vbuild. apply map_ext_in.
  intros i Hi. apply in_seq in Hi. apply H. lia.
Qed.

Lemma rows_build (m n : nat) (f : nat -> nat -> T) : rows (build m n f) = m.
Proof. reflexivity. Qed.

Lemma cols_build (m n : nat) (f : nat -> nat -> T) : cols (build m n f) = n.
Proof. reflexivity. Qed.

Lemma get_build (m n : nat) (f : nat -> nat -> T) (i j : nat) :
  i < m -> j < n -> get (build m n f) i j = f i j.
Proof.
  intros Hi Hj. unfold get, build. simpl.
  rewrite nth_map_seq by assumption. now apply vget_vbuild.
Qed.

Lemma build_ext (m n : nat) (f g : nat -> nat -> T) :
  (forall i j, i < m -> j < n -> f i j = g i j) -> build m n f = build m n g.
Proof.
  intros H. unfold build. f_equal. apply map_ext_in.
  intros i Hi. apply in_seq in Hi. apply vbuild_ext.
  intros j Hj. apply H; lia.
Qed.

Lemma wf_build (m n : nat) (f : nat -> nat -> T) : wf (build m n f).
Proof.
  split; simpl.
  - now rewrite length_map, length_seq.
  - apply Forall_forall. intros r Hr. apply in_map_iff in Hr.
    destruct Hr as [i [<- _]]. apply length_vbuild.
Qed.

Lemma vbuild_eta (v : vec T) : v = vbuild (length v) (vget v).
Proof.
  apply nth_ext with (d := zero) (d' := zero).
  - now rewrite length_vbuild.
  - intros i Hi. symmetry. now apply vget_vbuild.
Qed.

(** A well-formed tensor is the table of its entries. *)
Lemma build_eta (A : tensor T) :
  wf A -> A = build (rows A) (cols A) (get A).
Proof.
  destruct A as [m n d]. unfold wf. simpl. intros [Hlen Hrows].
  unfold build. simpl. f_equal.
  apply nth_ext with (d := []) (d' := []).
  - rewrite length_map, length_seq. exact Hlen.
  - intros i Hi.
    rewrite nth_map_seq by lia.
    assert (Hn : length (nth i d []) = n).
    { rewrite Forall_forall in Hrows. apply Hrows. now apply nth_In. }
    rewrite (vbuild_eta (nth i d [])) at 1. rewrite Hn.
    apply vbuild_ext. intros j Hj. reflexivity.
Qed.

Lemma teq_refl (A : tensor T) : teq A A.
Proof. repeat split; auto. Qed.

Lemma teq_sym (A B : tensor T) : teq A B -> teq B A.
Proof.
  intros (Hr & Hc & He). repeat split; auto.
  intros i j Hi Hj. symmetry. apply He; congruence.
Qed.

Lemma teq_trans (A B C : tensor T) : teq A B -> teq B C -> teq A C.
Proof.
  intros (Hr & Hc & He) (Hr' & Hc' & He'). repeat split; try congruence.
  intros i j Hi Hj. rewrite He by assumption. apply He'; congruence.
Qed.

(** On well-formed tensors [teq] is equality. *)
Lemma teq_eq (A B : tensor T) : wf A -> wf B -> teq A B -> A = B.
Proof.
  intros HA HB (Hr & Hc & He).
  rewrite (build_eta HA), (build_eta HB), <- Hr, <- Hc.
  now apply build_ext.
Qed.

End TensorFacts.

(** * Tests over all index pairs *)

Lemma all_entries_true (m n : nat) (f : nat -> nat -> bool) :
  all_entries m n f = true <->
  forall i j, i < m -> j < n -> f i j = true.
Proof.
  unfold all_entries. rewrite forallb_forall. split.
  - intros H i j Hi Hj.
    assert (Hin : In i (seq 0 m)) by (apply in_seq; lia).
    specialize (H i Hin). rewrite forallb_forall in H.
    apply H. apply in_seq. lia.
  - intros H i Hi. apply in_seq in Hi. apply forallb_forall.
    intros j Hj. apply in_seq in Hj. apply H; lia.
Qed.

Lemma forallb_false (A : Type) (f : A -> bool) (l : list A) :
  forallb f l = false <-> exists x, In x l /\ f x = false.
Proof.
  induction l as [|a l IH]; simpl.
  - split; [discriminate | intros (x & [] & _)].
  - rewrite andb_false_iff, IH. split.
    + intros [Ha | (x & Hx & Hf)]; [exists a; auto | exists x; auto].
    + intros (x & [<- | Hx] & Hf); [left; assumption | right; exists x; auto].
Qed.

Lemma all_entries_false (m n : nat) (f : nat -> nat -> bool) :
  all_entries m n f = false <->
  exists i j, i < m /\ j < n /\ f i j = false.
Proof.
  unfold all_entries. rewrite forallb_false. split.
  - intros (i & Hi & Hf). apply forallb_false in Hf.
    destruct Hf as (j & Hj & Hf). apply in_seq in Hi, Hj.
    exists i, j. repeat split; [lia | lia | assumption].
  - intros (i & j & Hi & Hj & Hf). exists i. split; [apply in_seq; lia|].
    apply forallb_false. exists j. split; [apply in_seq; lia | assumption].
Qed.

(** * Finite sums *)

Lemma sum_ext (T : Type) (ST : Scalar T) (n : nat) (f g : nat -> T) :
  (forall k, k < n -> f k = g k) -> sum n f = sum n g.
Proof.
  induction n as [|n IH]; intros H; simpl; auto.
  rewrite IH, H; auto.
Qed.

(** ** In exact arithmetic *)

Section Sums.
Context {T : Type} {ST : Scalar T} {ET : ExactScalar T}.

Lemma add_zero_r (x : T) : (x + zero = x)%S.
Proof. rewrite add_comm. apply add_zero_l. Qed.

Lemma mul_one_r (x : T) : (x * one = x)%S.
Proof. rewrite mul_comm. apply mul_one_l. Qed.

Lemma mul_zero_r (x : T) : (x * zero = zero)%S.
Proof. rewrite mul_comm. apply mul_zero_l. Qed.

Lemma mul_add_distr_r (x y z : T) : ((x + y) * z = x * z + y * z)%S.
Proof.
  rewrite mul_comm, mul_add_distr_l.
  now rewrite (mul_comm z x), (mul_comm z y).
Qed.

Lemma add_shuffle (a b c d : T) : ((a + b) + (c + d) = (a + c) + (b + d))%S.
Proof.
  rewrite <- (add_assoc a b), (add_assoc b c d), (add_comm b c).
  now rewrite <- (add_assoc c b d), (add_assoc a c).
Qed.

Lemma sum_zero (n : nat) : sum n (fun _ => zero) = (zero : T).
Proof.
  induction n as [|n IH]; simpl; auto.
  rewrite IH. apply add_zero_l.
Qed.

Lemma sum_add (n : nat) (f g : nat -> T) :
  sum n (fun k => (f k + g k)%S) = (sum n f + sum n g)%S.
Proof.
  induction n as [|n IH]; simpl.
  - symmetry. apply add_zero_l.
  - rewrite IH. apply add_shuffle.
Qed.

Lemma sum_mul_l (n : nat) (c : T) (f : nat -> T) :
  (c * sum n f)%S = sum n (fun k => (c * f k)%S).
Proof.
  induction n as [|n IH]; simpl.
  - apply mul_zero_r.
  - now rewrite mul_add_distr_l, IH.
Qed.

Lemma sum_mul_r (n : nat) (c : T) (f : nat -> T) :
  (sum n f * c)%S = sum n (fun k => (f k * c)%S).
Proof.
  rewrite mul_comm, sum_mul_l. apply sum_ext. intros. apply mul_comm.
Qed.

(** Exchange of two finite sums. *)
Lemma sum_swap (m n : nat) (f : nat -> nat -> T) :
  sum m (fun i => sum n (fun j => f i j)) =
  sum n (fun j => sum m (fun i => f i j)).
Proof.
  induction m as [|m IH]; simpl.
  - symmetry. apply sum_zero.
  - rewrite IH. symmetry. apply sum_add.
Qed.

(** A sum over m + n indices splits after the first m. *)
Lemma sum_app (m n : nat) (f : nat -> T) :
  sum (m + n) f = (sum m f + sum n (fun k => f (m + k)%nat))%S.
Proof.
  induction n as [|n IH]; simpl.
  - rewrite Nat.add_0_r. symmetry. apply add_zero_r.
  - rewrite Nat.add_succ_r. simpl. rewrite IH. symmetry. apply add_assoc.
Qed.

(** A sum with a single non-zero term. *)
Lemma sum_single (n i : nat) (f : nat -> T) :
  i < n -> sum n (fun k => if k =? i then f k else zero) = f i.
Proof.
  induction n as [|n IH]; intros Hi; [lia|]. simpl.
  destruct (Nat.eqb_spec n i) as [->|Hne].
  - rewrite sum_ext with (g := fun _ => zero); [rewrite sum_zero; apply add_zero_l|].
    intros k Hk. destruct (Nat.eqb_spec k i); [lia|reflexivity].
  - rewrite IH by lia. apply add_zero_r.
Qed.

End Sums.

(** * Facts about the torch operations *)

Section TorchFacts.
Context {T : Type} {ST : Scalar T}.

Lemma get_t (A : tensor T) (i j : nat) :
  i < cols A -> j < rows A -> get (torch.t A) i j = get A j i.
Proof. intros. unfold torch.t. now rewrite get_build. Qed.

Lemma get_mm (A B : tensor T) (i j : nat) :
  i < rows A -> j < cols B ->
  get (torch.mm A B) i j = sum (cols A) (fun k => (get A i k * get B k j)%S).
Proof. intros. unfold torch.mm. now rewrite get_build. Qed.

Lemma matmul_ok (A B : tensor T) :
  cols A = rows B -> torch.matmul A B = Ok (torch.mm A B).
Proof. intros H. unfold torch.matmul. now rewrite H, Nat.eqb_refl. Qed.

Lemma bidx_lt (d i : nat) : i < d -> torch.bidx d i = i.
Proof.
  intros Hi. unfold torch.bidx. destruct (Nat.eqb_spec d 1); lia.
Qed.

Lemma bget_get (A : tensor T) (i j : nat) :
  i < rows A -> j < cols A -> torch.bget A i j = get A i j.
Proof. intros. unfold torch.bget. now rewrite !bidx_lt. Qed.

Lemma broadcast_dim_same (a : nat) : torch.broadcast_dim a a = Some a.
Proof. unfold torch.broadcast_dim. now rewrite Nat.eqb_refl. Qed.

(** On equal shapes [multiply] is the entry-wise product. *)
Lemma multiply_same_shape (A B : tensor T) :
  rows A = rows B -> cols A = cols B ->
  torch.multiply A B =
  Ok (build (rows A) (cols A) (fun i j => (get A i j * get B i j)%S)).
Proof.
  intros Hr Hc. unfold torch.multiply.
  rewrite <- Hr, <- Hc, !broadcast_dim_same. f_equal.
  apply build_ext. intros i j Hi Hj.
  rewrite !bget_get; auto; congruence.
Qed.

(** On equal shapes [C += M] is the entry-wise sum. *)
Lemma iadd_same_shape (C M : tensor T) :
  rows M = rows C -> cols M = cols C ->
  torch.iadd C M =
  Ok (build (rows C) (cols C) (fun i j => (get C i j + get M i j)%S)).
Proof.
  intros Hr Hc. unfold torch.iadd.
  rewrite Hr, Hc, !Nat.eqb_refl. simpl. f_equal.
  apply build_ext. intros i j Hi Hj.
  rewrite bget_get; auto; congruence.
Qed.

(** The weight matrix W: row i holds pathweight[i] in every column. *)
Lemma get_tile_reshape (p : vec T) (n i j : nat) :
  i < length p -> j < n ->
  get (torch.tile (torch.reshape_col p) 1 n) i j = vget p i.
Proof.
  intros Hi Hj. unfold torch.tile, torch.reshape_col.
  rewrite !rows_build, !cols_build.
  rewrite get_build by lia.
  rewrite Nat.mod_small by lia. rewrite Nat.mod_1_r.
  rewrite get_build by lia. reflexivity.
Qed.

Lemma rows_tile_reshape (p : vec T) (n : nat) :
  rows (torch.tile (torch.reshape_col p) 1 n) = length p.
Proof. unfold torch.tile, torch.reshape_col. simpl. lia. Qed.

Lemma cols_tile_reshape (p : vec T) (n : nat) :
  cols (torch.tile (torch.reshape_col p) 1 n) = n.
Proof. unfold torch.tile, torch.reshape_col. simpl. lia. Qed.

End TorchFacts.

(** * accumulate_correlation_matrices: shape checks and closed form *)

Section AccumulateFacts.
Context {T : Type} {ST : Scalar T}.

Lemma weighted_ok (p : vec T) (n : nat) (Z : tensor T) :
  rows Z = length p -> n = cols Z ->
  torch.multiply (torch.tile (torch.reshape_col p) 1 n) Z =
  Ok (build (rows Z) (cols Z) (fun k j => (vget p k * get Z k j)%S)).
Proof.
  intros Hr ->.
  rewrite multiply_same_shape
    by (now rewrite ?rows_tile_reshape, ?cols_tile_reshape).
  rewrite rows_tile_reshape, cols_tile_reshape, <- Hr. f_equal.
  apply build_ext. intros k j Hk Hj.
  rewrite get_tile_reshape by lia. reflexivity.
Qed.

Lemma mm_t_weighted (X Y : tensor T) (p : vec T) :
  rows X = rows Y ->
  torch.mm (torch.t X)
           (build (rows Y) (cols Y) (fun k j => (vget p k * get Y k j)%S)) =
  moment X Y p.
Proof.
  intros Hr. unfold torch.mm, moment. simpl.
  apply build_ext. intros i j Hi Hj.
  apply sum_ext. intros k Hk.
  rewrite get_t by assumption. rewrite get_build by lia. reflexivity.
Qed.

Lemma assert_true (A : Type) (k : result A) :
  (assert! true ;; k) = k.
Proof. reflexivity. Qed.

(** With matching shapes every step succeeds, and each accumulator
    receives its weighted second moment. *)
Lemma accumulate_ok (z_t0 z_tt : tensor T) (p : vec T)
    (C00 C01 C10 C11 : tensor T) :
  rows z_t0 = rows z_tt -> rows z_tt = length p -> cols z_t0 = cols z_tt ->
  square (cols z_t0) C00 -> square (cols z_t0) C01 ->
  square (cols z_t0) C10 -> square (cols z_t0) C11 ->
  accumulate_correlation_matrices z_t0 z_tt p C00 C01 C10 C11 =
  Ok (tadd C00 (moment z_t0 z_t0 p), tadd C01 (moment z_t0 z_tt p),
      tadd C10 (moment z_tt z_t0 p), tadd C11 (moment z_tt z_tt p)).
Proof.
  intros Hr Hp Hc [R00 K00] [R01 K01] [R10 K10] [R11 K11].
  unfold accumulate_correlation_matrices, torch.size0, torch.size1.
  rewrite (proj2 (Nat.eqb_eq _ _) Hr), (proj2 (Nat.eqb_eq _ _) Hp),
    (proj2 (Nat.eqb_eq _ _) Hc).
  simpl andb. rewrite !assert_true. cbv zeta.
  rewrite (@weighted_ok p _ z_tt), (@weighted_ok p _ z_t0) by congruence.
  cbn [bind].
  rewrite !matmul_ok by (unfold torch.t; simpl; congruence).
  cbn [bind].
  rewrite !mm_t_weighted by congruence.
  rewrite !iadd_same_shape by (unfold moment; simpl; congruence).
  reflexivity.
Qed.

End AccumulateFacts.

Section AccumulateShapes.
Context {T : Type} {ST : Scalar T}.

Lemma iadd_not_assertion (C M : tensor T) (A : Type)
    (k : tensor T -> result A) :
  (forall C', k C' <> Raise AssertionError) ->
  (C' <- torch.iadd C M ;; k C') <> Raise AssertionError.
Proof.
  intros Hk. unfold torch.iadd.
  destruct (_ && _); simpl; [apply Hk | discriminate].
Qed.

(** C7: accumulate_correlation_matrices raises the assertion error exactly
    when the row counts of z_t0, z_tt and pathweight do not all agree or the
    column counts of z_t0 and z_tt differ; with matching shapes it never
    raises it. *)
Theorem accumulate_asserts_shapes (z_t0 z_tt : tensor T) (p : vec T)
    (C00 C01 C10 C11 : tensor T) :
  accumulate_correlation_matrices z_t0 z_tt p C00 C01 C10 C11
    = Raise AssertionError
  <-> ~ (rows z_t0 = rows z_tt /\ rows z_tt = length p /\
         cols z_t0 = cols z_tt).
Proof.
  unfold accumulate_correlation_matrices, torch.size0, torch.size1.
  destruct (Nat.eqb_spec (rows z_t0) (rows z_tt)) as [Hr|Hr];
    [|simpl; split; [intros _ (H & _); contradiction | reflexivity]].
  destruct (Nat.eqb_spec (rows z_tt) (length p)) as [Hp|Hp];
    [|simpl; split; [intros _ (_ & H & _); contradiction | reflexivity]].
  destruct (Nat.eqb_spec (cols z_t0) (cols z_tt)) as [Hc|Hc];
    [|simpl; split; [intros _ (_ & _ & H); contradiction | reflexivity]].
  simpl andb. rewrite !assert_true. cbv zeta.
  rewrite (@weighted_ok _ _ p _ z_tt), (@weighted_ok _ _ p _ z_t0) by congruence.
  cbn [bind].
  rewrite !matmul_ok by (unfold torch.t; simpl; congruence).
  cbn [bind].
  split; [|intros H; exfalso; apply H; auto].
  intros H. exfalso. revert H.
  repeat (apply iadd_not_assertion; intros ?). discriminate.
Qed.

End AccumulateShapes.

(** * accumulate_correlation_matrices in exact arithmetic *)

Section AccumulateAlgebra.
Context {T : Type} {ST : Scalar T} {ET : ExactScalar T}.

Lemma get_moment (X Y : tensor T) (p : vec T) (i j : nat) :
  i < cols X -> j < cols Y ->
  get (moment X Y p) i j =
  sum (rows X) (fun k => (get X k i * (vget p k * get Y k j))%S).
Proof. intros. unfold moment. now rewrite get_build. Qed.

Lemma get_tadd (C M : tensor T) (i j : nat) :
  i < rows C -> j < cols C ->
  get (tadd C M) i j = (get C i j + get M i j)%S.
Proof. intros. unfold tadd. now rewrite get_build. Qed.

Lemma tadd_ext (C C' M M' : tensor T) :
  rows C = rows C' -> cols C = cols C' ->
  (forall i j, i < rows C -> j < cols C ->
     (get C i j + get M i j = get C' i j + get M' i j)%S) ->
  tadd C M = tadd C' M'.
Proof.
  intros Hr Hc H. unfold tadd. rewrite <- Hr, <- Hc. now apply build_ext.
Qed.

(** A moment over no observations adds nothing. *)
Lemma tadd_empty_moment (n : nat) (C X Y : tensor T) (p : vec T) :
  wf C -> square n C -> rows X = 0 -> cols X = n -> cols Y = n ->
  tadd C (moment X Y p) = C.
Proof.
  intros Hwf [Hr Hc] HX HcX HcY.
  rewrite (build_eta Hwf) at 2. unfold tadd.
  apply build_ext. intros i j Hi Hj.
  rewrite get_moment by lia. rewrite HX. simpl. apply add_zero_r.
Qed.

(** C10: an empty batch (no rows in z_t0, z_tt and pathweight, the same
    number of columns n_comp) passes both assertions and returns the four
    n_comp x n_comp accumulators unchanged: each increment is the zero
    matrix. *)
Theorem accumulate_empty_batch (n : nat) (z_t0 z_tt : tensor T) (p : vec T)
    (C00 C01 C10 C11 : tensor T) :
  rows z_t0 = 0 -> rows z_tt = 0 -> length p = 0 ->
  cols z_t0 = n -> cols z_tt = n ->
  wf C00 -> wf C01 -> wf C10 -> wf C11 ->
  square n C00 -> square n C01 -> square n C10 -> square n C11 ->
  accumulate_correlation_matrices z_t0 z_tt p C00 C01 C10 C11 =
  Ok (C00, C01, C10, C11).
Proof.
  intros H0 Ht Hp Hc0 Hct W00 W01 W10 W11 S00 S01 S10 S11. subst n.
  rewrite accumulate_ok by first [congruence | assumption].
  rewrite !(@tadd_empty_moment (cols z_t0)) by first [assumption | reflexivity].
  reflexivity.
Qed.

Lemma moment_swap (X Y : tensor T) (p : vec T) (i j : nat) :
  rows X = rows Y -> i < cols X -> j < cols Y ->
  get (moment X Y p) i j = get (moment Y X p) j i.
Proof.
  intros Hr Hi Hj. rewrite !get_moment by assumption. rewrite Hr.
  apply sum_ext. intros k Hk.
  rewrite (mul_comm (get X k i)), (mul_comm (vget p k) (get Y k j)).
  symmetry. apply mul_assoc.
Qed.

(** C3, as the code has it: in exact arithmetic, from zero-initialised
    accumulators, the C10 returned is the transpose of the C01 returned,
    whatever the pathweights are. *)
Theorem accumulate_cross_terms_transposed (n : nat) (z_t0 z_tt : tensor T)
    (p : vec T) :
  rows z_t0 = rows z_tt -> rows z_tt = length p ->
  cols z_t0 = n -> cols z_tt = n ->
  exists C00 C01 C10 C11,
    accumulate_correlation_matrices z_t0 z_tt p
      (zeros n n) (zeros n n) (zeros n n) (zeros n n)
    = Ok (C00, C01, C10, C11) /\
    C10 = torch.t C01.
Proof.
  intros Hr Hp Hc0 Hct. subst n.
  rewrite accumulate_ok by first [congruence | split; reflexivity].
  do 4 eexists. split; [reflexivity|].
  unfold tadd at 1. unfold torch.t. unfold zeros at 1 2. simpl.
  apply build_ext. intros i j Hi Hj.
  rewrite get_tadd by assumption.
  f_equal.
  - unfold zeros. now rewrite !get_build.
  - apply moment_swap; congruence.
Qed.

Lemma get_concat_rows (A B : tensor T) (i j : nat) :
  i < rows A + rows B -> j < cols A ->
  get (concat_rows A B) i j =
  if i <? rows A then get A i j else get B (i - rows A) j.
Proof. intros. unfold concat_rows. now rewrite get_build. Qed.

Lemma vget_app (p q : vec T) (k : nat) :
  vget (p ++ q) k = if k <? length p then vget p k else vget q (k - length p).
Proof.
  unfold vget. destruct (Nat.ltb_spec k (length p)).
  - now apply app_nth1.
  - now apply app_nth2.
Qed.

(** The moment of two concatenated batches is the sum of their moments. *)
Lemma moment_concat (Xa Xb Ya Yb : tensor T) (pa pb : vec T) (i j : nat) :
  rows Xa = rows Ya -> rows Ya = length pa -> rows Xb = rows Yb ->
  i < cols Xa -> j < cols Ya -> i < cols Xb -> j < cols Yb ->
  get (moment (concat_rows Xa Xb) (concat_rows Ya Yb) (pa ++ pb)) i j =
  (get (moment Xa Ya pa) i j + get (moment Xb Yb pb) i j)%S.
Proof.
  intros Ha Hpa Hb Hi Hj Hi' Hj'.
  rewrite !get_moment by assumption.
  unfold concat_rows at 1. rewrite rows_build, sum_app. f_equal.
  - apply sum_ext. intros k Hk.
    rewrite !get_concat_rows, vget_app by lia.
    rewrite <- Hpa, <- Ha.
    destruct (Nat.ltb_spec k (rows Xa)); [reflexivity | lia].
  - apply sum_ext. intros k Hk.
    rewrite !get_concat_rows, vget_app by lia.
    rewrite <- Hpa, <- Ha.
    destruct (Nat.ltb_spec (rows Xa + k) (rows Xa)); [lia|].
    now replace (rows Xa + k - rows Xa) with k by lia.
Qed.

Lemma tadd_moment_concat (n : nat) (C Xa Xb Ya Yb : tensor T) (pa pb : vec T) :
  square n C ->
  rows Xa = rows Ya -> rows Ya = length pa -> rows Xb = rows Yb ->
  cols Xa = n -> cols Ya = n -> cols Xb = n -> cols Yb = n ->
  tadd (tadd C (moment Xa Ya pa)) (moment Xb Yb pb) =
  tadd C (moment (concat_rows Xa Xb) (concat_rows Ya Yb) (pa ++ pb)).
Proof.
  intros [Hr Hc] Ha Hpa Hb HXa HYa HXb HYb.
  apply tadd_ext; try reflexivity.
  intros i j Hi Hj. simpl in Hi, Hj.
  rewrite get_tadd by assumption.
  rewrite moment_concat by lia.
  symmetry. apply add_assoc.
Qed.

(** C6: in exact arithmetic, accumulating batch a and then batch b gives
    the same four accumulators as one call on the row-wise concatenation of
    the two batches with the concatenated pathweights, from the same
    initial accumulators; both computations succeed. *)
Theorem accumulate_additive (n : nat)
    (z_t0_a z_tt_a : tensor T) (p_a : vec T)
    (z_t0_b z_tt_b : tensor T) (p_b : vec T)
    (C00 C01 C10 C11 : tensor T) :
  rows z_t0_a = rows z_tt_a -> rows z_tt_a = length p_a ->
  cols z_t0_a = n -> cols z_tt_a = n ->
  rows z_t0_b = rows z_tt_b -> rows z_tt_b = length p_b ->
  cols z_t0_b = n -> cols z_tt_b = n ->
  square n C00 -> square n C01 -> square n C10 -> square n C11 ->
  exists R,
    (' (C00', C01', C10', C11') <-
       accumulate_correlation_matrices z_t0_a z_tt_a p_a C00 C01 C10 C11 ;;
     accumulate_correlation_matrices z_t0_b z_tt_b p_b C00' C01' C10' C11')
    = Ok R /\
    accumulate_correlation_matrices
      (concat_rows z_t0_a z_t0_b) (concat_rows z_tt_a z_tt_b) (p_a ++ p_b)
      C00 C01 C10 C11
    = Ok R.
Proof.
  intros Hra Hpa Hc0a Hcta Hrb Hpb Hc0b Hctb S00 S01 S10 S11. subst n.
  rewrite (accumulate_ok z_t0_a z_tt_a) by first [congruence | assumption].
  cbn [bind].
  rewrite (accumulate_ok z_t0_b z_tt_b)
    by first [congruence | rewrite Hc0b; split; simpl; apply S00 ||
              apply S01 || apply S10 || apply S11].
  rewrite accumulate_ok.
  - eexists. split; [reflexivity|].
    now rewrite !(@tadd_moment_concat (cols z_t0_a)) by congruence.
  - simpl. congruence.
  - simpl. rewrite length_app. congruence.
  - simpl. congruence.
  - assumption.
  - assumption.
  - assumption.
  - assumption.
Qed.

End AccumulateAlgebra.

(** * Matrix algebra in exact arithmetic *)

Section MatrixAlgebra.
Context {T : Type} {ST : Scalar T} {ET : ExactScalar T}.

Lemma rows_mm (A B : tensor T) : rows (torch.mm A B) = rows A.
Proof. reflexivity. Qed.

Lemma cols_mm (A B : tensor T) : cols (torch.mm A B) = cols B.
Proof. reflexivity. Qed.

Lemma rows_t (A : tensor T) : rows (torch.t A) = cols A.
Proof. reflexivity. Qed.

Lemma cols_t (A : tensor T) : cols (torch.t A) = rows A.
Proof. reflexivity. Qed.

Lemma wf_mm (A B : tensor T) : wf (torch.mm A B).
Proof. apply wf_build. Qed.

Lemma wf_t (A : tensor T) : wf (torch.t A).
Proof. apply wf_build. Qed.

Lemma wf_eye (n : nat) : wf (eye n : tensor T).
Proof. apply wf_build. Qed.

Lemma get_eye (n i j : nat) :
  i < n -> j < n -> get (eye n : tensor T) i j = if i =? j then one else zero.
Proof. intros. unfold eye. now rewrite get_build. Qed.

(** Two products are equal when their entries are. *)
Lemma mm_ext (A B A' B' : tensor T) :
  rows A = rows A' -> cols B = cols B' ->
  (forall i j, i < rows A -> j < cols B ->
     get (torch.mm A B) i j = get (torch.mm A' B') i j) ->
  torch.mm A B = torch.mm A' B'.
Proof.
  intros Hr Hc H. apply teq_eq; try apply wf_mm.
  repeat split; assumption.
Qed.

Lemma mm_teq_l (A A' B : tensor T) :
  teq A A' -> torch.mm A B = torch.mm A' B.
Proof.
  intros (Hr & Hc & He). apply mm_ext; auto.
  intros i j Hi Hj. rewrite !get_mm by congruence. rewrite <- Hc.
  apply sum_ext. intros k Hk. now rewrite He.
Qed.

Lemma mm_teq_r (A B B' : tensor T) :
  cols A = rows B -> teq B B' -> torch.mm A B = torch.mm A B'.
Proof.
  intros HAB (Hr & Hc & He). apply mm_ext; auto.
  intros i j Hi Hj. rewrite !get_mm by congruence.
  apply sum_ext. intros k Hk. rewrite He by congruence. reflexivity.
Qed.

Lemma mm_assoc (A B C : tensor T) :
  cols A = rows B ->
  torch.mm (torch.mm A B) C = torch.mm A (torch.mm B C).
Proof.
  intros HAB. apply mm_ext; try reflexivity.
  intros i j Hi Hj. rewrite rows_mm in Hi.
  rewrite !get_mm by (rewrite ?rows_mm, ?cols_mm; assumption).
  rewrite cols_mm.
  rewrite sum_ext with
    (g := fun l => sum (cols A)
                     (fun k => (get A i k * (get B k l * get C l j))%S)).
  - rewrite sum_swap. apply sum_ext. intros k Hk.
    rewrite get_mm by (rewrite ?cols_mm; congruence).
    symmetry. apply sum_mul_l.
  - intros l Hl. rewrite get_mm by assumption. rewrite sum_mul_r.
    apply sum_ext. intros k Hk. symmetry. apply mul_assoc.
Qed.

Lemma mm_eye_l (n : nat) (A : tensor T) :
  rows A = n -> teq (torch.mm (eye n) A) A.
Proof.
  intros Hr. split; [|split]; [now rewrite rows_mm | now rewrite cols_mm |].
  intros i j Hi Hj. rewrite rows_mm in Hi. rewrite cols_mm in Hj.
  change (rows (eye n)) with n in Hi.
  rewrite get_mm by assumption. change (cols (eye n)) with n.
  rewrite sum_ext with (g := fun k => if k =? i then get A k j else zero).
  - now apply sum_single with (f := fun k => get A k j).
  - intros k Hk. rewrite get_eye by assumption.
    rewrite (Nat.eqb_sym i k).
    destruct (k =? i); [apply mul_one_l | apply mul_zero_l].
Qed.

Lemma mm_eye_r (n : nat) (A : tensor T) :
  cols A = n -> teq (torch.mm A (eye n)) A.
Proof.
  intros Hc. split; [|split]; [now rewrite rows_mm | now rewrite cols_mm |].
  intros i j Hi Hj. rewrite rows_mm in Hi. rewrite cols_mm in Hj.
  change (cols (eye n)) with n in Hj.
  rewrite get_mm by assumption. rewrite Hc.
  rewrite sum_ext with (g := fun k => if k =? j then get A i k else zero).
  - apply sum_single with (f := fun k => get A i k). lia.
  - intros k Hk. rewrite get_eye by lia.
    destruct (k =? j); [apply mul_one_r | apply mul_zero_r].
Qed.

(** Multiplying by diag(w) on the right scales column j by w[j]. *)
Lemma get_mm_diag (A : tensor T) (w : vec T) (i j : nat) :
  cols A = length w -> i < rows A -> j < length w ->
  get (torch.mm A (torch.diag w)) i j = (get A i j * vget w j)%S.
Proof.
  intros Hc Hi Hj.
  rewrite get_mm by first [assumption | unfold torch.diag; now rewrite cols_build].
  rewrite Hc.
  rewrite sum_ext with
    (g := fun k => if k =? j then (get A i k * vget w k)%S else zero).
  - now apply sum_single with (f := fun k => (get A i k * vget w k)%S).
  - intros k Hk. unfold torch.diag. rewrite get_build by lia.
    destruct (k =? j); [reflexivity | apply mul_zero_r].
Qed.

Lemma t_mm (A B : tensor T) :
  cols A = rows B ->
  torch.t (torch.mm A B) = torch.mm (torch.t B) (torch.t A).
Proof.
  intros HAB. apply teq_eq; [apply wf_t | apply wf_mm |].
  split; [|split]; [reflexivity | reflexivity |].
  intros i j Hi Hj. rewrite rows_t, cols_mm in Hi. rewrite cols_t, rows_mm in Hj.
  rewrite get_t, !get_mm by (rewrite ?rows_t, ?cols_t, ?rows_mm, ?cols_mm; lia).
  rewrite cols_t, HAB. apply sum_ext. intros k Hk.
  rewrite !get_t by lia. apply mul_comm.
Qed.

Lemma mm_eye_l_wf (n : nat) (A : tensor T) :
  wf A -> rows A = n -> torch.mm (eye n) A = A.
Proof.
  intros HA Hr. apply teq_eq; [apply wf_mm | assumption | now apply mm_eye_l].
Qed.

Lemma t_eye (n : nat) : torch.t (eye n : tensor T) = eye n.
Proof.
  apply teq_eq; [apply wf_t | apply wf_eye |].
  split; [|split]; [reflexivity | reflexivity |].
  intros i j Hi Hj. rewrite rows_t in Hi. rewrite cols_t in Hj.
  change (cols (eye n)) with n in Hi. change (rows (eye n)) with n in Hj.
  rewrite get_t, !get_eye by assumption.
  now rewrite Nat.eqb_sym.
Qed.

(** The inverse of the transposed factor is the transposed inverse. *)
Lemma inverse_of_transpose (n : nat) (L Li LTi : tensor T) :
  square n L -> square n Li -> square n LTi ->
  is_inverse L Li -> is_inverse (torch.t L) LTi ->
  teq LTi (torch.t Li).
Proof.
  intros [HrL HcL] [HrLi HcLi] [HrT HcT] [HLLi _] [HTL _].
  rewrite rows_t in HTL.
  assert (E : torch.mm (torch.mm LTi (torch.t L)) (torch.t Li)
              = torch.mm LTi (torch.mm (torch.t L) (torch.t Li)))
    by (apply mm_assoc; rewrite rows_t; congruence).
  rewrite <- t_mm, HLLi, HTL in E by congruence.
  rewrite HcL, HrL in E.
  rewrite t_eye in E.
  rewrite mm_eye_l_wf in E by (try apply wf_t; rewrite rows_t; congruence).
  rewrite E. apply teq_sym. now apply mm_eye_r.
Qed.

(** Ctilde = Linv C LTinv is symmetric when C is. *)
Lemma reduced_symmetric (n : nat) (C Li LTi : tensor T) :
  square n C -> symmetric C -> square n Li -> square n LTi ->
  teq LTi (torch.t Li) ->
  symmetric (torch.mm Li (torch.mm C LTi)).
Proof.
  intros [HrC HcC] [_ HC] [HrLi HcLi] [HrT HcT] (_ & _ & HT).
  split; [rewrite rows_mm, !cols_mm; congruence|].
  intros i j Hi Hj. rewrite rows_mm in Hi, Hj.
  rewrite !get_mm by (rewrite ?rows_mm, ?cols_mm; congruence).
  rewrite HcLi.
  rewrite sum_ext with
    (g := fun k => sum n (fun l =>
            (get Li i k * (get C k l * get Li j l))%S)).
  2:{ intros k Hk.
      rewrite get_mm by (rewrite ?rows_mm, ?cols_mm; congruence).
      rewrite HcC, sum_mul_l. apply sum_ext. intros l Hl.
      rewrite HT, get_t by congruence. reflexivity. }
  symmetry.
  rewrite sum_ext with
    (g := fun k => sum n (fun l =>
            (get Li i l * (get C l k * get Li j k))%S)).
  2:{ intros k Hk.
      rewrite get_mm by (rewrite ?rows_mm, ?cols_mm; congruence).
      rewrite HcC, sum_mul_l. apply sum_ext. intros l Hl.
      rewrite HT, get_t by congruence.
      rewrite (HC k l) by congruence.
      rewrite (mul_comm (get Li j k)), (mul_comm (get C l k)), mul_assoc.
      now rewrite (mul_comm (get Li i l)). }
  apply sum_swap.
Qed.

(** The algebra behind the Cholesky reduction: with Q = L L^T and
    Ctilde vtilde = vtilde diag(w), the back-transformed v = LTinv vtilde
    satisfies C v = (Q v) diag(w). *)
Lemma cholesky_reduction (n : nat) (C Q L Li LTi vt : tensor T) (w : vec T) :
  square n C -> square n Q -> square n L -> square n Li -> square n LTi ->
  square n vt -> length w = n ->
  is_cholesky_factor Q L -> is_inverse L Li -> is_inverse (torch.t L) LTi ->
  torch.mm (torch.mm Li (torch.mm C LTi)) vt = torch.mm vt (torch.diag w) ->
  torch.mm C (torch.mm LTi vt) =
  torch.mm (torch.mm Q (torch.mm LTi vt)) (torch.diag w).
Proof.
  intros [HrC HcC] [HrQ HcQ] [HrL HcL] [HrLi HcLi] [HrT HcT] [Hrv Hcv] Hw
         HQ [_ HLLi] [_ HTT] Heig.
  rewrite rows_t in HTT. rewrite HrL in HLLi. rewrite HcL in HTT.
  (* Q v = L vtilde *)
  rewrite <- (mm_teq_l (torch.mm LTi vt) HQ).
  rewrite (mm_assoc L) by (rewrite rows_t; congruence).
  rewrite <- (mm_assoc (torch.t L)) by (rewrite cols_t; congruence).
  rewrite HTT.
  rewrite (@mm_teq_r L (torch.mm (eye n) vt) vt)
    by first [rewrite rows_mm; simpl; congruence | now apply mm_eye_l].
  (* L (vtilde diag w) = L (Ctilde vtilde) = C v *)
  rewrite mm_assoc by congruence.
  rewrite <- Heig.
  rewrite (mm_assoc Li) by (rewrite rows_mm; congruence).
  rewrite <- (mm_assoc L) by congruence.
  rewrite HLLi.
  rewrite (mm_assoc C) by congruence.
  symmetry. apply mm_eye_l_wf; [apply wf_mm | now rewrite rows_mm].
Qed.

End MatrixAlgebra.

(** * Flipped eigenvalues and columns *)

Section Flips.
Context {T : Type} {ST : Scalar T}.

Lemma map_vbuild (g : T -> T) (n : nat) (f : nat -> T) :
  map g (vbuild n f) = vbuild n (fun i => g (f i)).
Proof. unfold vbuild. apply map_map. Qed.

Lemma vget_flip0 (w : vec T) (i : nat) :
  i < length w -> vget (torch.flip0 w) i = vget w (length w - 1 - i).
Proof.
  intros Hi. unfold vget, torch.flip0. rewrite rev_nth by assumption.
  f_equal. lia.
Qed.

Lemma col_flip1 (V : tensor T) (i : nat) :
  i < cols V -> col (torch.flip1 V) i = col V (cols V - 1 - i).
Proof.
  intros Hi. unfold col, torch.flip1. rewrite rows_build.
  apply vbuild_ext. intros r Hr. now rewrite get_build.
Qed.

(** The product of a matrix with a column of another is a column of the
    product. *)
Lemma matvec_col (A V : tensor T) (c : nat) :
  cols A = rows V -> c < cols V ->
  matvec A (col V c) = col (torch.mm A V) c.
Proof.
  intros HAV Hc. unfold matvec, col. rewrite rows_mm.
  apply vbuild_ext. intros r Hr. rewrite get_mm by assumption.
  apply sum_ext. intros k Hk. now rewrite vget_vbuild by congruence.
Qed.

Lemma flip0_non_ascending (w : vec T) :
  ascending w -> non_ascending (torch.flip0 w).
Proof.
  intros Hasc i j Hij Hj. unfold torch.flip0 in Hj. rewrite length_rev in Hj.
  rewrite !vget_flip0 by lia. apply Hasc; lia.
Qed.

End Flips.

(** * gen_eig_chol *)

Section GenEigCholFacts.
Context {T : Type} {ST : Scalar T} {ET : ExactScalar T}.

Variable cholesky : tensor T -> result (tensor T).
Variable inv : tensor T -> result (tensor T).
Variable eigh : tensor T -> result (vec T * tensor T).

(** The primitives return tensors of the shapes torch documents. *)
Hypothesis cholesky_shape : forall Q L,
  cholesky Q = Ok L -> square (rows Q) L.
Hypothesis inv_shape : forall M Mi,
  inv M = Ok Mi -> rows Mi = rows M /\ cols Mi = cols M.
Hypothesis eigh_shape : forall A w V,
  eigh A = Ok (w, V) -> length w = rows A /\ square (rows A) V.

(** What they return is correct, when they return. *)
Hypothesis cholesky_spec : forall Q L,
  symmetric Q -> cholesky Q = Ok L -> is_cholesky_factor Q L.
Hypothesis inv_spec : forall M Mi,
  rows M = cols M -> inv M = Ok Mi -> is_inverse M Mi.
Hypothesis eigh_spec : forall A w V,
  symmetric A -> eigh A = Ok (w, V) -> is_eigendecomposition A w V.

(** Cholesky rejects a symmetric matrix that is not positive definite. *)
Hypothesis cholesky_rejects : forall Q,
  symmetric Q -> ~ positive_definite Q ->
  exists msg, cholesky Q = Raise (RuntimeError msg).

(** Shapes along the run. *)
Lemma run_shapes (n : nat) (C Q L Li LTi vt : tensor T) (w : vec T) :
  square n C -> square n Q ->
  primitives_return cholesky inv eigh C Q L Li LTi w vt ->
  square n L /\ square n Li /\ square n LTi /\ length w = n /\ square n vt.
Proof.
  intros [HrC HcC] [HrQ HcQ] (Hch & Hi & Hit & He).
  apply cholesky_shape in Hch. rewrite HrQ in Hch. destruct Hch as [HrL HcL].
  apply inv_shape in Hi. apply inv_shape in Hit.
  rewrite rows_t, cols_t in Hit.
  apply eigh_shape in He. rewrite rows_mm in He.
  destruct Hi as [HrLi HcLi]. destruct Hit as [HrT HcT].
  destruct He as [Hw [Hrv Hcv]].
  unfold square. repeat split; congruence.
Qed.

(** When the primitives return, so does gen_eig_chol, with the eigenvalues
    and the columns of LTinv vtilde both in reverse order. *)
Lemma gen_eig_chol_run (n : nat) (C Q L Li LTi vt : tensor T) (w : vec T) :
  square n C -> square n Q ->
  primitives_return cholesky inv eigh C Q L Li LTi w vt ->
  gen_eig_chol cholesky inv eigh C Q =
  Ok (torch.flip0 w, torch.flip1 (torch.mm LTi vt)).
Proof.
  intros HC HQ Hrun.
  destruct (run_shapes HC HQ Hrun)
    as ([HrL HcL] & [HrLi HcLi] & [HrT HcT] & Hw & [Hrv Hcv]).
  destruct HC as [HrC HcC]. destruct Hrun as (Hch & Hi & Hit & He).
  unfold gen_eig_chol.
  rewrite Hch. cbn [bind]. rewrite Hi. cbn [bind]. rewrite Hit. cbn [bind].
  rewrite (matmul_ok C LTi) by congruence. cbn [bind].
  rewrite matmul_ok by (rewrite rows_mm; congruence). cbn [bind].
  rewrite He. cbn [bind].
  rewrite matmul_ok by congruence. reflexivity.
Qed.

(** C9: the symmetry of C is never checked.  For every n x n matrix C,
    symmetric or not, and every Q on which Cholesky succeeds, gen_eig_chol
    returns a pair (w, v) as soon as the primitives return. *)
Theorem gen_eig_chol_no_symmetry_check (n : nat)
    (C Q L Li LTi vt : tensor T) (w : vec T) :
  square n C -> square n Q ->
  primitives_return cholesky inv eigh C Q L Li LTi w vt ->
  exists w' v',
    gen_eig_chol cholesky inv eigh C Q = Ok (w', v') /\
    length w' = n /\ square n v'.
Proof.
  intros HC HQ Hrun.
  destruct (run_shapes HC HQ Hrun) as (_ & _ & [HrT HcT] & Hw & [Hrv Hcv]).
  do 2 eexists. split; [exact (gen_eig_chol_run HC HQ Hrun)|].
  unfold torch.flip0, torch.flip1, square.
  rewrite length_rev, rows_build, cols_build, rows_mm, cols_mm. auto.
Qed.

(** On symmetric inputs the eigensolver is run on a symmetric matrix, so
    its result satisfies C V = (Q V) diag(w) for V = LTinv vtilde. *)
Lemma run_eigen_equation (n : nat) (C Q L Li LTi vt : tensor T) (w : vec T) :
  square n C -> symmetric C -> square n Q -> symmetric Q ->
  primitives_return cholesky inv eigh C Q L Li LTi w vt ->
  ascending w /\
  torch.mm C (torch.mm LTi vt) =
  torch.mm (torch.mm Q (torch.mm LTi vt)) (torch.diag w).
Proof.
  intros HC HCs HQ HQs Hrun.
  destruct (run_shapes HC HQ Hrun) as (HL & HLi & HLTi & Hw & Hvt).
  destruct Hrun as (Hch & Hi & Hit & He).
  pose proof (cholesky_spec HQs Hch) as HF.
  assert (HI : is_inverse L Li)
    by (apply inv_spec; [destruct HL; congruence | assumption]).
  assert (HIT : is_inverse (torch.t L) LTi)
    by (apply inv_spec;
        [rewrite rows_t, cols_t; destruct HL; congruence | assumption]).
  assert (Hsym : symmetric (torch.mm Li (torch.mm C LTi))).
  { apply (@reduced_symmetric _ _ _ n); auto.
    now apply (@inverse_of_transpose _ _ _ n L). }
  destruct (eigh_spec Hsym He) as [Heq Hasc].
  split; [assumption|].
  now apply (@cholesky_reduction _ _ _ n C Q L Li).
Qed.

(** C5: in exact arithmetic, on symmetric C and symmetric Q for which the
    primitives return, the eigenvalues returned are in non-ascending order
    and v is reordered with them: w_i is the (n-1-i)-th eigenvalue of the
    eigensolver, and column i of v is the back-transform LTinv vtilde_k of
    the eigenvector paired with it, k = n-1-i. *)
Theorem gen_eig_chol_ordering (n : nat)
    (C Q L Li LTi vt : tensor T) (wa : vec T) :
  square n C -> symmetric C -> square n Q -> symmetric Q ->
  primitives_return cholesky inv eigh C Q L Li LTi wa vt ->
  exists w v,
    gen_eig_chol cholesky inv eigh C Q = Ok (w, v) /\
    length w = n /\ square n v /\ non_ascending w /\
    forall i, i < n ->
      vget w i = vget wa (n - 1 - i) /\
      col v i = matvec LTi (col vt (n - 1 - i)).
Proof.
  intros HC HCs HQ HQs Hrun.
  destruct (run_shapes HC HQ Hrun) as (_ & _ & [HrT HcT] & Hw & [Hrv Hcv]).
  destruct (run_eigen_equation HC HCs HQ HQs Hrun) as [Hasc _].
  do 2 eexists. split; [exact (gen_eig_chol_run HC HQ Hrun)|].
  split; [unfold torch.flip0; now rewrite length_rev|].
  split; [unfold torch.flip1; split; simpl; congruence|].
  split; [now apply flip0_non_ascending|].
  intros i Hi. split.
  - rewrite vget_flip0 by lia. now rewrite Hw.
  - rewrite col_flip1 by (rewrite cols_mm; lia). rewrite cols_mm, Hcv.
    symmetry. apply matvec_col; [congruence | lia].
Qed.

(** C4: for every symmetric Q that is not positive definite, gen_eig_chol
    fails at the Cholesky step with a ValueError whose message advises to
    reduce the learning rate, increase the batch size or ask for fewer
    CVs. *)
Theorem gen_eig_chol_rejects_non_pd (C Q : tensor T) :
  symmetric Q -> ~ positive_definite Q ->
  gen_eig_chol cholesky inv eigh C Q = Raise (ValueError not_psd_message) /\
  mentions not_psd_message "reducing the learning rate" = true /\
  mentions not_psd_message "increasing the batch size" = true /\
  mentions not_psd_message "asking for fewer CVs" = true.
Proof.
  intros HQs Hnpd.
  destruct (cholesky_rejects HQs Hnpd) as [msg Hmsg].
  split; [|repeat split; vm_compute; reflexivity].
  unfold gen_eig_chol. now rewrite Hmsg.
Qed.

End GenEigCholFacts.

(** * Concrete runs of accumulate_correlation_matrices *)

Lemma wf_concrete_2x2 (a b c d : Z) : wf (mkTensor 2 2 [[a; b]; [c; d]]).
Proof. split; [reflexivity | repeat constructor]. Qed.

Lemma accumulate_empty_batch_witness :
  accumulate_correlation_matrices Examples.z_empty Examples.z_empty []
    Examples.C00 Examples.C01 Examples.C10 Examples.C11
  = Ok (Examples.C00, Examples.C01, Examples.C10, Examples.C11).
Proof.
  apply (@accumulate_empty_batch Z Z_Scalar Z_ExactScalar 2);
    first [reflexivity | apply wf_concrete_2x2 | split; reflexivity].
Defined.

Lemma accumulate_cross_terms_transposed_witness :
  exists C00 C01 C10 C11,
    accumulate_correlation_matrices Examples.z_t0 Examples.z_tt
      Examples.pathweight (zeros 2 2) (zeros 2 2) (zeros 2 2) (zeros 2 2)
    = Ok (C00, C01, C10, C11) /\
    C10 = torch.t C01.
Proof.
  apply (@accumulate_cross_terms_transposed Z Z_Scalar Z_ExactScalar 2);
    reflexivity.
Defined.

(** C3 as stated fails: with pathweights 2 and 3, not identically one, the
    binary64 run from zero accumulators returns C01 and C10 that are exact
    transposes of each other. *)
Lemma accumulate_weighted_cross_terms_transposed :
  Examples.all_ones Examples.pathweight_f = false /\
  exists C00 C01 C10 C11,
    accumulate_correlation_matrices Examples.z_t0_f Examples.z_tt_f
      Examples.pathweight_f (zeros 2 2) (zeros 2 2) (zeros 2 2) (zeros 2 2)
    = Ok (C00, C01, C10, C11) /\
    C01 = mkTensor 2 2 [[73; 84]; [104; 120]]%float /\
    C10 = mkTensor 2 2 [[73; 104]; [84; 120]]%float /\
    C10 = torch.t C01.
Proof.
  split; [reflexivity|].
  do 4 eexists. split; [vm_compute; reflexivity|].
  repeat split; vm_compute; reflexivity.
Qed.

Lemma accumulate_additive_witness :
  exists R,
    (' (C00', C01', C10', C11') <-
       accumulate_correlation_matrices Examples.z_t0 Examples.z_tt
         Examples.pathweight
         Examples.C00 Examples.C01 Examples.C10 Examples.C11 ;;
     accumulate_correlation_matrices Examples.z_t0_b Examples.z_tt_b
       Examples.pathweight_b C00' C01' C10' C11')
    = Ok R /\
    accumulate_correlation_matrices
      (concat_rows Examples.z_t0 Examples.z_t0_b)
      (concat_rows Examples.z_tt Examples.z_tt_b)
      (Examples.pathweight ++ Examples.pathweight_b)
      Examples.C00 Examples.C01 Examples.C10 Examples.C11
    = Ok R.
Proof.
  apply (@accumulate_additive Z Z_Scalar Z_ExactScalar 2);
    first [reflexivity | split; reflexivity].
Defined.

(** * The integer primitives meet the contracts *)

Section IntegerPrimitivesSound.
Import IntegerPrimitives.

Lemma is_eye_teq (M : tensor Z) :
  is_eye M = true -> rows M = cols M /\ teq M (eye (rows M)).
Proof.
  unfold is_eye. rewrite andb_true_iff, all_entries_true.
  intros [Hsq He]. apply Nat.eqb_eq in Hsq.
  split; [assumption|]. split; [|split]; [reflexivity | now simpl |].
  intros i j Hi Hj. rewrite <- Hsq in Hj.
  rewrite get_eye by assumption. apply Z.eqb_eq. now apply He.
Qed.

Lemma int_cholesky_shape (Q L : tensor Z) :
  cholesky Q = Ok L -> square (rows Q) L.
Proof.
  unfold cholesky. destruct (is_eye Q); [|discriminate].
  intros [= <-]. split; reflexivity.
Qed.

Lemma int_inv_shape (M Mi : tensor Z) :
  inv M = Ok Mi -> rows Mi = rows M /\ cols Mi = cols M.
Proof.
  unfold inv. destruct (is_eye M) eqn:E; [|discriminate].
  intros [= <-]. apply is_eye_teq in E. destruct E as [Hsq _].
  split; [reflexivity | exact Hsq].
Qed.

Lemma int_eigh_shape (A : tensor Z) (w : vec Z) (V : tensor Z) :
  eigh A = Ok (w, V) -> length w = rows A /\ square (rows A) V.
Proof.
  unfold eigh. destruct (_ && _); [|discriminate].
  intros [= <- <-]. split; [apply length_vbuild | split; reflexivity].
Qed.

Lemma int_cholesky_spec (Q L : tensor Z) :
  symmetric Q -> cholesky Q = Ok L -> is_cholesky_factor Q L.
Proof.
  intros _. unfold cholesky. destruct (is_eye Q) eqn:E; [|discriminate].
  intros [= <-]. apply is_eye_teq in E. destruct E as [_ E].
  unfold is_cholesky_factor. rewrite t_eye.
  eapply teq_trans; [apply mm_eye_l; reflexivity | now apply teq_sym].
Qed.

Lemma int_inv_spec (M Mi : tensor Z) :
  rows M = cols M -> inv M = Ok Mi -> is_inverse M Mi.
Proof.
  intros _. unfold inv. destruct (is_eye M) eqn:E; [|discriminate].
  intros [= <-]. apply is_eye_teq in E. destruct E as [Hsq E].
  split.
  - apply teq_eq; [apply wf_mm | apply wf_eye |].
    eapply teq_trans; [apply mm_eye_l; reflexivity | exact E].
  - apply teq_eq; [apply wf_mm | apply wf_eye |].
    eapply teq_trans; [apply mm_eye_r; symmetry; exact Hsq | exact E].
Qed.

Lemma int_eigh_spec (A : tensor Z) (w : vec Z) (V : tensor Z) :
  symmetric A -> eigh A = Ok (w, V) -> is_eigendecomposition A w V.
Proof.
  intros [_ Hsym]. unfold eigh.
  destruct (_ && _) eqn:E; [|discriminate]. intros [= <- <-].
  rewrite !andb_true_iff in E. destruct E as [[Hsq Hlow] Hasc].
  apply Nat.eqb_eq in Hsq.
  unfold lower_is_diagonal in Hlow. rewrite all_entries_true in Hlow.
  unfold ascending_b in Hasc. rewrite all_entries_true in Hasc.
  assert (Hlen : length (diagonal A) = rows A) by apply length_vbuild.
  split.
  - apply teq_eq; try apply wf_mm.
    eapply teq_trans; [apply mm_eye_r; now symmetry|].
    eapply teq_trans;
      [|apply teq_sym; apply mm_eye_l; unfold torch.diag; now rewrite rows_build].
    split; [|split];
      [unfold torch.diag; now rewrite rows_build
      |unfold torch.diag; rewrite cols_build; congruence|].
    intros i j Hi Hj. rewrite <- Hsq in Hj.
    unfold torch.diag. rewrite get_build by lia.
    destruct (Nat.eqb_spec i j) as [->|Hne].
    + unfold diagonal. now rewrite vget_vbuild.
    + destruct (Nat.lt_ge_cases j i) as [Hlt|Hge].
      * specialize (Hlow i j Hi Hj). apply Nat.ltb_lt in Hlt.
        rewrite Hlt in Hlow. now apply Z.eqb_eq.
      * assert (Hlt : i < j) by lia.
        rewrite Hsym by assumption.
        specialize (Hlow j i Hj Hi). apply Nat.ltb_lt in Hlt.
        rewrite Hlt in Hlow. now apply Z.eqb_eq.
  - intros i j Hij Hj. specialize (Hasc i j ltac:(lia) Hj).
    apply Nat.leb_le in Hij. rewrite Hij in Hasc.
    apply Z.leb_le. exact Hasc.
Qed.

Lemma sum_Z_nonneg (n : nat) (f : nat -> Z) :
  (forall k, k < n -> (0 <= f k)%Z) -> (0 <= sum n f)%Z.
Proof.
  induction n as [|n IH]; intros H; simpl; [lia|].
  specialize (IH (fun k Hk => H k (Nat.lt_lt_succ_r _ _ Hk))).
  specialize (H n (Nat.lt_succ_diag_r n)). lia.
Qed.

Lemma sum_Z_pos (n i : nat) (f : nat -> Z) :
  (forall k, k < n -> (0 <= f k)%Z) -> i < n -> (0 < f i)%Z ->
  (0 < sum n f)%Z.
Proof.
  induction n as [|n IH]; intros H Hi Hfi; [lia|]. simpl.
  assert (Hn : (0 <= sum n f)%Z)
    by (apply sum_Z_nonneg; intros k Hk; apply H; lia).
  destruct (Nat.eq_dec i n) as [->|Hne]; [lia|].
  assert (Hp : (0 < sum n f)%Z)
    by (apply IH; [intros k Hk; apply H; lia | lia | assumption]).
  specialize (H n (Nat.lt_succ_diag_r n)). lia.
Qed.

(** The identity matrix is positive definite. *)
Lemma is_eye_positive_definite (Q : tensor Z) :
  is_eye Q = true -> positive_definite Q.
Proof.
  intros E. apply is_eye_teq in E. destruct E as [Hsq (_ & _ & He)].
  intros x Hlen (i & Hi & Hxi).
  assert (Hq : quad_form Q x = sum (rows Q) (fun k => (vget x k * vget x k)%Z)).
  { unfold quad_form. apply sum_ext. intros k Hk. simpl mul. f_equal.
    rewrite sum_ext with
      (g := fun j => if j =? k then vget x j else zero).
    - apply sum_single with (f := fun j => vget x j). congruence.
    - intros j Hj. rewrite He, get_eye by congruence.
      rewrite (Nat.eqb_sym k j).
      destruct (j =? k); cbv [one zero mul Z_Scalar]; lia. }
  rewrite Hq.
  assert (Hpos : (0 < sum (rows Q) (fun k => (vget x k * vget x k)%Z))%Z).
  { apply sum_Z_pos with (i := i); try assumption.
    - intros k Hk. apply Z.square_nonneg.
    - change (vget x i <> 0%Z) in Hxi. nia. }
  set (q := sum _ _) in *. intros Hle. change (q <= 0)%Z in Hle. lia.
Qed.

Lemma int_cholesky_rejects (Q : tensor Z) :
  symmetric Q -> ~ positive_definite Q ->
  exists msg, cholesky Q = Raise (RuntimeError msg).
Proof.
  intros _ Hnpd. unfold cholesky. destruct (is_eye Q) eqn:E.
  - exfalso. apply Hnpd. now apply is_eye_positive_definite.
  - eexists. reflexivity.
Qed.

End IntegerPrimitivesSound.

(** * Concrete runs of gen_eig_chol *)

Ltac concrete_symmetric :=
  split;
  [ reflexivity
  | let i := fresh "i" in
    let j := fresh "j" in
    intros i j ? ?;
    destruct i as [|[|i]]; destruct j as [|[|j]];
    first [reflexivity | simpl in *; lia] ].

Lemma symmetric_Q_id : symmetric IntegerPrimitives.Q_id.
Proof. concrete_symmetric. Qed.

Lemma symmetric_C_sym : symmetric IntegerPrimitives.C_sym.
Proof. concrete_symmetric. Qed.

Lemma symmetric_Q_outer : symmetric IntegerPrimitives.Q_outer.
Proof. concrete_symmetric. Qed.

Lemma C_nonsym_not_symmetric : ~ symmetric IntegerPrimitives.C_nonsym.
Proof.
  intros [_ H]. specialize (H 0 1 ltac:(simpl; lia) ltac:(simpl; lia)).
  discriminate H.
Qed.

Lemma Q_outer_not_positive_definite :
  ~ positive_definite IntegerPrimitives.Q_outer.
Proof.
  intros H. apply (H [1; -1]%Z).
  - reflexivity.
  - exists 0. split; [simpl; lia | discriminate].
  - vm_compute. discriminate.
Qed.

Lemma primitives_return_C_sym :
  primitives_return
    IntegerPrimitives.cholesky IntegerPrimitives.inv IntegerPrimitives.eigh
    IntegerPrimitives.C_sym IntegerPrimitives.Q_id
    (eye 2) (eye 2) (eye 2) [2; 7]%Z (eye 2).
Proof. repeat split. Qed.

Lemma primitives_return_C_nonsym :
  primitives_return
    IntegerPrimitives.cholesky IntegerPrimitives.inv IntegerPrimitives.eigh
    IntegerPrimitives.C_nonsym IntegerPrimitives.Q_id
    (eye 2) (eye 2) (eye 2) [2; 7]%Z (eye 2).
Proof. repeat split. Qed.

Lemma gen_eig_chol_ordering_witness :
  exists w v,
    gen_eig_chol
      IntegerPrimitives.cholesky IntegerPrimitives.inv IntegerPrimitives.eigh
      IntegerPrimitives.C_sym IntegerPrimitives.Q_id = Ok (w, v) /\
    length w = 2 /\ square 2 v /\ non_ascending w /\
    forall i, i < 2 ->
      vget w i = vget [2; 7]%Z (2 - 1 - i) /\
      col v i = matvec (eye 2) (col (eye 2) (2 - 1 - i)).
Proof.
  apply (@gen_eig_chol_ordering Z Z_Scalar Z_ExactScalar
           IntegerPrimitives.cholesky IntegerPrimitives.inv
           IntegerPrimitives.eigh
           int_cholesky_shape int_inv_shape int_eigh_shape
           int_cholesky_spec int_inv_spec int_eigh_spec
           2 IntegerPrimitives.C_sym IntegerPrimitives.Q_id
           (eye 2) (eye 2) (eye 2) (eye 2) [2; 7]%Z).
  - split; reflexivity.
  - exact symmetric_C_sym.
  - split; reflexivity.
  - exact symmetric_Q_id.
  - exact primitives_return_C_sym.
Defined.

Lemma gen_eig_chol_no_symmetry_check_witness :
  ~ symmetric IntegerPrimitives.C_nonsym /\
  exists w' v',
    gen_eig_chol
      IntegerPrimitives.cholesky IntegerPrimitives.inv IntegerPrimitives.eigh
      IntegerPrimitives.C_nonsym IntegerPrimitives.Q_id = Ok (w', v') /\
    length w' = 2 /\ square 2 v'.
Proof.
  split; [exact C_nonsym_not_symmetric|].
  apply (@gen_eig_chol_no_symmetry_check Z Z_Scalar
           IntegerPrimitives.cholesky IntegerPrimitives.inv
           IntegerPrimitives.eigh
           int_cholesky_shape int_inv_shape int_eigh_shape
           2 IntegerPrimitives.C_nonsym IntegerPrimitives.Q_id
           (eye 2) (eye 2) (eye 2) (eye 2) [2; 7]%Z).
  - split; reflexivity.
  - split; reflexivity.
  - exact primitives_return_C_nonsym.
Defined.

Lemma gen_eig_chol_rejects_non_pd_witness :
  gen_eig_chol
    IntegerPrimitives.cholesky IntegerPrimitives.inv IntegerPrimitives.eigh
    IntegerPrimitives.C_sym IntegerPrimitives.Q_outer
  = Raise (ValueError not_psd_message) /\
  mentions not_psd_message "reducing the learning rate" = true /\
  mentions not_psd_message "increasing the batch size" = true /\
  mentions not_psd_message "asking for fewer CVs" = true.
Proof.
  apply (@gen_eig_chol_rejects_non_pd Z Z_Scalar
           IntegerPrimitives.cholesky IntegerPrimitives.inv
           IntegerPrimitives.eigh int_cholesky_rejects
           IntegerPrimitives.C_sym IntegerPrimitives.Q_outer).
  - exact symmetric_Q_outer.
  - exact Q_outer_not_positive_definite.
Defined.

(** * stable_symmetric_inverse *)

Section StableInverseFacts.
Import Float64Examples.
Local Open Scope float_scope.

Variable eigh : tensor float -> result (vec float * tensor float).

(** The thresholding step: an eigenvalue that is not above the float32
    machine epsilon is replaced by zero, the others are kept. *)
Lemma threshold_entry (w : vec float) (i : nat) :
  (i < length w)%nat ->
  vget (torch64.where_ (torch64.gt w torch64.float32_eps) w
                       (torch64.zeros_like w)) i
  = if torch64.float32_eps <? vget w i then vget w i else 0.
Proof.
  unfold torch64.where_, torch64.gt, torch64.zeros_like, vget.
  revert i. induction w as [|x w IH]; intros i Hi; simpl in Hi; [lia|].
  destruct i as [|i]; simpl; [reflexivity|].
  apply IH. lia.
Qed.

(** Comparison of binary64 numbers: [y < x] fails when [x <= y] holds. *)
Lemma SFcompare_antisym (a b : spec_float) :
  SFcompare b a = option_map CompOpp (SFcompare a b).
Proof.
  destruct a as [sa|sa| |sa ma ea], b as [sb|sb| |sb mb eb]; simpl;
    try reflexivity;
    try (destruct sa; reflexivity); try (destruct sb; reflexivity);
    try (destruct sa, sb; reflexivity).
  destruct sa, sb; simpl; try reflexivity;
    rewrite (Z.compare_antisym eb ea);
    destruct (eb ?= ea)%Z; simpl; try reflexivity;
    rewrite (Pos.compare_cont_antisym ma mb Eq); simpl;
    now rewrite ?CompOpp_involutive.
Qed.

Lemma leb_not_ltb (x y : float) : (x <=? y) = true -> (y <? x) = false.
Proof.
  rewrite leb_spec, ltb_spec. unfold SFleb, SFltb.
  rewrite (SFcompare_antisym (Prim2SF x) (Prim2SF y)).
  destruct (SFcompare (Prim2SF x) (Prim2SF y)) as [[| |]|]; simpl; congruence.
Qed.

(** Every eigenvalue at or below the float32 machine epsilon becomes
    exactly zero. *)
Lemma threshold_zeroes_small (w : vec float) (i : nat) :
  (i < length w)%nat ->
  (vget w i <=? torch64.float32_eps) = true ->
  vget (torch64.where_ (torch64.gt w torch64.float32_eps) w
                       (torch64.zeros_like w)) i = 0.
Proof.
  intros Hi Hle. rewrite threshold_entry by assumption.
  now rewrite (leb_not_ltb Hle).
Qed.

(** The symmetry assertion, on a square matrix, is the closeness test of
    every entry with its mirror image. *)
Lemma allclose_transpose (A : tensor float) (rtol atol : float) :
  rows A = cols A ->
  torch64.allclose A (torch.t A) rtol atol =
  Ok (all_entries (rows A) (rows A)
        (fun i j => torch64.isclose rtol atol (get A i j) (get A j i))).
Proof.
  intros Hsq. unfold torch64.allclose.
  rewrite rows_t, cols_t, <- Hsq, !broadcast_dim_same. f_equal.
  destruct (all_entries (rows A) (rows A)
              (fun i j => torch64.isclose rtol atol (get A i j) (get A j i)))
    eqn:E.
  - rewrite all_entries_true in *. intros i j Hi Hj.
    rewrite !bget_get, get_t
      by (rewrite ?rows_t, ?cols_t; congruence).
    now apply E.
  - rewrite all_entries_false in *. destruct E as (i & j & Hi & Hj & E).
    exists i, j. repeat split; try assumption.
    rewrite !bget_get, get_t
      by (rewrite ?rows_t, ?cols_t; congruence).
    exact E.
Qed.

Lemma matmul_not_assertion (A B : tensor float) (X : Type)
    (k : tensor float -> result X) :
  (forall M, k M <> Raise AssertionError) ->
  (M <- torch.matmul A B ;; k M) <> Raise AssertionError.
Proof.
  intros Hk. unfold torch.matmul.
  destruct (_ =? _)%nat; simpl; [apply Hk | discriminate].
Qed.

(** C8, as the code has it: on a square matrix, and with an eigensolver
    that raises no assertion error of its own, stable_symmetric_inverse
    raises the assertion error exactly when some entry A[i][j] fails
    torch's closeness test against A[j][i], which allows the absolute
    tolerance 1e-6 plus the default relative tolerance 1e-5 * |A[j][i]|. *)
Theorem stable_symmetric_inverse_assertion (A : tensor float)
    (ret_sqrt : bool) :
  rows A = cols A ->
  (forall M, eigh M <> Raise AssertionError) ->
  stable_symmetric_inverse eigh A ret_sqrt = Raise AssertionError
  <-> exists i j, (i < rows A)%nat /\ (j < rows A)%nat /\
        torch64.isclose torch64.default_rtol 1e-6 (get A i j) (get A j i)
        = false.
Proof.
  intros Hsq Heigh. unfold stable_symmetric_inverse.
  rewrite allclose_transpose by assumption. cbn [bind].
  rewrite <- all_entries_false.
  destruct (all_entries _ _ _); cbn [assert bind].
  - split; [|discriminate]. intros H. exfalso. revert H.
    destruct (eigh A) as [[w V]|e] eqn:E; cbn [bind].
    + destruct ret_sqrt;
        repeat (apply matmul_not_assertion; intros ?);
        unfold torch.matmul; destruct (_ =? _)%nat; discriminate.
    + intros [= ->]. now apply (Heigh A).
  - split; reflexivity.
Qed.

(** C2 fails on the singular matrix [[1, 0], [0, 0]]: its zero eigenvalue
    is kept as zero by the thresholding, its negative power is infinite,
    and the returned matrix has NaN and infinite entries. *)
Theorem stable_symmetric_inverse_singular_not_finite (ret_sqrt : bool) :
  eigh A_singular = Ok ([0; 1], mkTensor 2 2 [[0; 1]; [1; 0]]) ->
  stable_symmetric_inverse eigh A_singular ret_sqrt =
    Ok (mkTensor 2 2 [[nan; nan]; [nan; infinity]]) /\
  all_finite (mkTensor 2 2 [[nan; nan]; [nan; infinity]]) = false.
Proof.
  intros H. split; [|reflexivity].
  unfold stable_symmetric_inverse.
  rewrite allclose_transpose by reflexivity.
  replace (all_entries _ _ _) with true by (vm_compute; reflexivity).
  cbn [bind assert]. rewrite H. cbn [bind].
  destruct ret_sqrt; vm_compute; reflexivity.
Qed.

End StableInverseFacts.

(** * Concrete runs of stable_symmetric_inverse *)

Lemma eigh_table_no_assertion (M : tensor float) :
  Float64Examples.eigh_table M <> Raise AssertionError.
Proof.
  unfold Float64Examples.eigh_table.
  repeat (destruct (Float64Examples.tensor_eqb _ _); [discriminate|]).
  discriminate.
Qed.

Lemma stable_symmetric_inverse_assertion_witness :
  stable_symmetric_inverse Float64Examples.eigh_table
    Float64Examples.A_skewed false = Raise AssertionError
  <-> exists i j, i < 2 /\ j < 2 /\
        torch64.isclose torch64.default_rtol 1e-6%float
          (get Float64Examples.A_skewed i j)
          (get Float64Examples.A_skewed j i)
        = false.
Proof.
  apply (@stable_symmetric_inverse_assertion Float64Examples.eigh_table
           Float64Examples.A_skewed false).
  - reflexivity.
  - exact eigh_table_no_assertion.
Defined.

Lemma stable_symmetric_inverse_singular_not_finite_witness :
  stable_symmetric_inverse Float64Examples.eigh_table
    Float64Examples.A_singular false =
    Ok (mkTensor 2 2 [[nan; nan]; [nan; infinity]]%float) /\
  Float64Examples.all_finite
    (mkTensor 2 2 [[nan; nan]; [nan; infinity]]%float) = false.
Proof.
  apply (@stable_symmetric_inverse_singular_not_finite
           Float64Examples.eigh_table false).
  reflexivity.
Defined.

(** The 1 x 1 zero matrix: its inverse is reported as infinity. *)
Lemma stable_symmetric_inverse_zero_matrix :
  stable_symmetric_inverse Float64Examples.eigh_table
    Float64Examples.A_zero false =
  Ok (mkTensor 1 1 [[infinity]]%float).
Proof. vm_compute. reflexivity. Qed.

(** C8 as stated fails: the off-diagonal entries of A_skewed differ by
    0.001, far more than the absolute tolerance 1e-6, yet the assertion
    passes and the function goes on to return a matrix. *)
Lemma skewed_matrix_passes_assertion :
  Float64Examples.symmetric_within_atol Float64Examples.A_skewed = false /\
  torch64.allclose Float64Examples.A_skewed
    (torch.t Float64Examples.A_skewed) torch64.default_rtol
    1e-6%float = Ok true /\
  stable_symmetric_inverse Float64Examples.eigh_table
    Float64Examples.A_skewed false <> Raise AssertionError.
Proof.
  split; [vm_compute; reflexivity|].
  split; [vm_compute; reflexivity|].
  vm_compute. discriminate.
Qed.

(** * accumulate_correlation_matrices: further properties *)

Section AccumulateMore.
Context {T : Type} {ST : Scalar T} {ET : ExactScalar T}.

Lemma moment_unweighted (X Y : tensor T) (p : vec T) :
  rows X = rows Y -> (forall k, k < rows X -> vget p k = one) ->
  moment X Y p = torch.mm (torch.t X) Y.
Proof.
  intros Hr Hp. unfold moment, torch.mm. rewrite rows_t, cols_t.
  apply build_ext. intros i j Hi Hj. apply sum_ext. intros k Hk.
  rewrite get_t, Hp, mul_one_l by assumption. reflexivity.
Qed.

(** X1: with pathweights identically one, each accumulator receives the
    plain product of the transposed first batch with the second, e.g.
    C01 += z_t0^T z_tt. *)
Theorem accumulate_unweighted (z_t0 z_tt : tensor T) (p : vec T)
    (C00 C01 C10 C11 : tensor T) :
  rows z_t0 = rows z_tt -> rows z_tt = length p -> cols z_t0 = cols z_tt ->
  square (cols z_t0) C00 -> square (cols z_t0) C01 ->
  square (cols z_t0) C10 -> square (cols z_t0) C11 ->
  (forall k, k < length p -> vget p k = one) ->
  accumulate_correlation_matrices z_t0 z_tt p C00 C01 C10 C11 =
  Ok (tadd C00 (torch.mm (torch.t z_t0) z_t0),
      tadd C01 (torch.mm (torch.t z_t0) z_tt),
      tadd C10 (torch.mm (torch.t z_tt) z_t0),
      tadd C11 (torch.mm (torch.t z_tt) z_tt)).
Proof.
  intros Hr Hp Hc S00 S01 S10 S11 Hone.
  rewrite accumulate_ok by assumption.
  rewrite !moment_unweighted
    by first [congruence | intros k Hk; apply Hone; congruence].
  reflexivity.
Qed.

Lemma moment_zero_weights (n : nat) (C X Y : tensor T) (p : vec T) :
  wf C -> square n C -> cols X = n -> cols Y = n ->
  (forall k, k < rows X -> vget p k = zero) ->
  tadd C (moment X Y p) = C.
Proof.
  intros Hwf [Hr Hc] HX HY Hp.
  rewrite (build_eta Hwf) at 2. unfold tadd.
  apply build_ext. intros i j Hi Hj.
  rewrite get_moment by lia.
  rewrite sum_ext with (g := fun _ => zero).
  - rewrite sum_zero. apply add_zero_r.
  - intros k Hk. now rewrite Hp, mul_zero_l, mul_zero_r.
Qed.

(** X2: observations of pathweight zero are ignored: a batch whose
    pathweights are all zero leaves the four accumulators unchanged. *)
Theorem accumulate_zero_weights (n : nat) (z_t0 z_tt : tensor T) (p : vec T)
    (C00 C01 C10 C11 : tensor T) :
  rows z_t0 = rows z_tt -> rows z_tt = length p ->
  cols z_t0 = n -> cols z_tt = n ->
  wf C00 -> wf C01 -> wf C10 -> wf C11 ->
  square n C00 -> square n C01 -> square n C10 -> square n C11 ->
  (forall k, k < length p -> vget p k = zero) ->
  accumulate_correlation_matrices z_t0 z_tt p C00 C01 C10 C11 =
  Ok (C00, C01, C10, C11).
Proof.
  intros Hr Hp Hc0 Hct W00 W01 W10 W11 S00 S01 S10 S11 Hz. subst n.
  rewrite accumulate_ok by first [congruence | assumption].
  rewrite !(@moment_zero_weights (cols z_t0))
    by first [assumption | reflexivity | intros k Hk; apply Hz; congruence].
  reflexivity.
Qed.

(** X3: C00 and C11 stay symmetric: if they are symmetric before the
    call, they are symmetric after it. *)
Theorem accumulate_keeps_symmetry (n : nat) (z_t0 z_tt : tensor T)
    (p : vec T) (C00 C01 C10 C11 : tensor T) :
  rows z_t0 = rows z_tt -> rows z_tt = length p ->
  cols z_t0 = n -> cols z_tt = n ->
  square n C00 -> square n C01 -> square n C10 -> square n C11 ->
  symmetric C00 -> symmetric C11 ->
  exists C00' C01' C10' C11',
    accumulate_correlation_matrices z_t0 z_tt p C00 C01 C10 C11
    = Ok (C00', C01', C10', C11') /\
    symmetric C00' /\ symmetric C11'.
Proof.
  intros Hr Hp Hc0 Hct S00 S01 S10 S11 [_ H00] [_ H11]. subst n.
  rewrite accumulate_ok by first [congruence | assumption].
  do 4 eexists. split; [reflexivity|].
  destruct S00 as [R00 K00]. destruct S11 as [R11 K11].
  split; (split; [unfold tadd; simpl; congruence|]);
    intros i j Hi Hj; unfold tadd in Hi, Hj; simpl in Hi, Hj;
    rewrite !get_tadd by congruence; f_equal.
  - now apply H00.
  - apply moment_swap; congruence.
  - now apply H11.
  - apply moment_swap; congruence.
Qed.

(** X4: the transpose relation between C01 and C10 is kept from call to
    call: if C10 is the transpose of C01 before the call, it is after. *)
Theorem accumulate_keeps_transposition (n : nat) (z_t0 z_tt : tensor T)
    (p : vec T) (C00 C01 C10 C11 : tensor T) :
  rows z_t0 = rows z_tt -> rows z_tt = length p ->
  cols z_t0 = n -> cols z_tt = n ->
  square n C00 -> square n C01 -> square n C10 -> square n C11 ->
  teq C10 (torch.t C01) ->
  exists C00' C01' C10' C11',
    accumulate_correlation_matrices z_t0 z_tt p C00 C01 C10 C11
    = Ok (C00', C01', C10', C11') /\
    C10' = torch.t C01'.
Proof.
  intros Hr Hp Hc0 Hct S00 [R01 K01] [R10 K10] S11 (_ & _ & Ht). subst n.
  rewrite accumulate_ok by first [congruence | assumption | now split].
  do 4 eexists. split; [reflexivity|].
  unfold tadd at 1. unfold torch.t. unfold tadd at 1 2. simpl.
  rewrite R10, K10, R01, K01.
  apply build_ext. intros i j Hi Hj.
  rewrite get_tadd by congruence. f_equal.
  - rewrite Ht by congruence. apply get_t; congruence.
  - apply moment_swap; congruence.
Qed.

(** X5: the order of two batches does not matter: accumulating a and
    then b gives the same accumulators as b and then a. *)
Theorem accumulate_order_independent (n : nat)
    (z_t0_a z_tt_a : tensor T) (p_a : vec T)
    (z_t0_b z_tt_b : tensor T) (p_b : vec T)
    (C00 C01 C10 C11 : tensor T) :
  rows z_t0_a = rows z_tt_a -> rows z_tt_a = length p_a ->
  cols z_t0_a = n -> cols z_tt_a = n ->
  rows z_t0_b = rows z_tt_b -> rows z_tt_b = length p_b ->
  cols z_t0_b = n -> cols z_tt_b = n ->
  square n C00 -> square n C01 -> square n C10 -> square n C11 ->
  exists R,
    (' (C00', C01', C10', C11') <-
       accumulate_correlation_matrices z_t0_a z_tt_a p_a C00 C01 C10 C11 ;;
     accumulate_correlation_matrices z_t0_b z_tt_b p_b C00' C01' C10' C11')
    = Ok R /\
    (' (C00', C01', C10', C11') <-
       accumulate_correlation_matrices z_t0_b z_tt_b p_b C00 C01 C10 C11 ;;
     accumulate_correlation_matrices z_t0_a z_tt_a p_a C00' C01' C10' C11')
    = Ok R.
Proof.
  intros Hra Hpa Hc0a Hcta Hrb Hpb Hc0b Hctb S00 S01 S10 S11. subst n.
  assert (Hsq : forall C M : tensor T,
             square (cols z_t0_a) C -> square (cols z_t0_a) (tadd C M))
    by (intros C M [HrC HcC]; split; assumption).
  rewrite (accumulate_ok z_t0_a z_tt_a) by first [congruence | assumption].
  rewrite (accumulate_ok z_t0_b z_tt_b)
    by first [congruence | rewrite Hc0b; assumption].
  cbn [bind].
  rewrite (accumulate_ok z_t0_b z_tt_b)
    by first [congruence | rewrite Hc0b; now apply Hsq].
  rewrite (accumulate_ok z_t0_a z_tt_a)
    by first [congruence | now apply Hsq].
  eexists. split; [reflexivity|].
  assert (Hswap : forall C M N : tensor T,
             tadd (tadd C M) N = tadd (tadd C N) M).
  { intros C M N. apply tadd_ext; try reflexivity.
    intros i j Hi Hj. unfold tadd in Hi, Hj. simpl in Hi, Hj.
    rewrite !get_tadd by assumption.
    rewrite <- !add_assoc. f_equal. apply add_comm. }
  now rewrite (Hswap C00), (Hswap C01), (Hswap C10), (Hswap C11).
Qed.

End AccumulateMore.

Section AccumulateErrors.
Context {T : Type} {ST : Scalar T}.

Lemma iadd_accepts (n : nat) (C M : tensor T) :
  square n M ->
  torch.iadd C M =
  if accepts_increment n C
  then Ok (build (rows C) (cols C)
             (fun i j => (get C i j + torch.bget M i j)%S))
  else Raise (RuntimeError "output with shape doesn't match the broadcast shape").
Proof.
  intros [Hr Hc]. unfold torch.iadd, accepts_increment. now rewrite Hr, Hc.
Qed.

(** X6: once the batch passes the two assertions, the call succeeds
    exactly when every accumulator accepts an n_comp x n_comp increment;
    otherwise it raises a RuntimeError (never an assertion error). *)
Theorem accumulate_accumulator_shapes (n : nat) (z_t0 z_tt : tensor T)
    (p : vec T) (C00 C01 C10 C11 : tensor T) :
  rows z_t0 = rows z_tt -> rows z_tt = length p ->
  cols z_t0 = n -> cols z_tt = n ->
  if accepts_increment n C00 && accepts_increment n C01 &&
     accepts_increment n C10 && accepts_increment n C11
  then exists R,
         accumulate_correlation_matrices z_t0 z_tt p C00 C01 C10 C11 = Ok R
  else exists msg,
         accumulate_correlation_matrices z_t0 z_tt p C00 C01 C10 C11
         = Raise (RuntimeError msg).
Proof.
  intros Hr Hp Hc0 Hct.
  unfold accumulate_correlation_matrices, torch.size0, torch.size1.
  rewrite (proj2 (Nat.eqb_eq _ _) Hr), (proj2 (Nat.eqb_eq _ _) Hp).
  rewrite (proj2 (Nat.eqb_eq _ _) (eq_trans Hc0 (eq_sym Hct))).
  simpl andb. rewrite !assert_true. cbv zeta.
  rewrite (@weighted_ok _ _ p _ z_tt), (@weighted_ok _ _ p _ z_t0) by congruence.
  cbn [bind].
  rewrite !matmul_ok by (unfold torch.t; simpl; congruence).
  cbn [bind].
  rewrite !(@iadd_accepts n)
    by (split; [rewrite rows_mm, rows_t | rewrite cols_mm, cols_build];
        congruence).
  destruct (accepts_increment n C00); cbn [bind andb];
    [|eexists; reflexivity].
  destruct (accepts_increment n C01); cbn [bind andb];
    [|eexists; reflexivity].
  destruct (accepts_increment n C10); cbn [bind andb];
    [|eexists; reflexivity].
  destruct (accepts_increment n C11); cbn [bind andb];
    eexists; reflexivity.
Qed.

End AccumulateErrors.

(** * gen_eig_chol: eigenpairs, normalisation and errors *)

Section MatrixAlgebraMore.
Context {T : Type} {ST : Scalar T} {ET : ExactScalar T}.

Lemma t_t (A : tensor T) : teq (torch.t (torch.t A)) A.
Proof.
  split; [|split]; [reflexivity | reflexivity |].
  intros i j Hi Hj. rewrite rows_t, cols_t in Hi. rewrite cols_t, rows_t in Hj.
  rewrite !get_t by (rewrite ?rows_t, ?cols_t; assumption). reflexivity.
Qed.

Lemma get_flip1 (V : tensor T) (i j : nat) :
  i < rows V -> j < cols V ->
  get (torch.flip1 V) i j = get V i (cols V - 1 - j).
Proof. intros. unfold torch.flip1. now rewrite get_build. Qed.

(** Q v = L vtilde for the back-transformed v = LTinv vtilde. *)
Lemma metric_times_backtransform (n : nat) (Q L LTi vt : tensor T) :
  square n Q -> square n L -> square n LTi -> square n vt ->
  is_cholesky_factor Q L -> is_inverse (torch.t L) LTi ->
  torch.mm Q (torch.mm LTi vt) = torch.mm L vt.
Proof.
  intros [HrQ HcQ] [HrL HcL] [HrT HcT] [Hrv Hcv] HQ [_ HTT].
  rewrite rows_t, HcL in HTT.
  rewrite <- (mm_teq_l (torch.mm LTi vt) HQ).
  rewrite (mm_assoc L) by (rewrite rows_t; congruence).
  rewrite <- (mm_assoc (torch.t L)) by (rewrite cols_t; congruence).
  rewrite HTT.
  apply mm_teq_r; [rewrite rows_mm; simpl; congruence | now apply mm_eye_l].
Qed.

(** With orthonormal vtilde, V = LTinv vtilde satisfies V^T Q V = I. *)
Lemma backtransform_orthonormal (n : nat) (Q L LTi vt : tensor T) :
  square n Q -> square n L -> square n LTi -> square n vt ->
  is_cholesky_factor Q L -> is_inverse (torch.t L) LTi ->
  torch.mm (torch.t vt) vt = eye n ->
  torch.mm (torch.t (torch.mm LTi vt)) (torch.mm Q (torch.mm LTi vt)) = eye n.
Proof.
  intros SQ SL ST' Sv HQ HI Horth.
  rewrite (metric_times_backtransform SQ SL ST' Sv HQ HI).
  destruct SQ as [HrQ HcQ]. destruct SL as [HrL HcL].
  destruct ST' as [HrT HcT]. destruct Sv as [Hrv Hcv].
  destruct HI as [_ HTT]. rewrite rows_t, HcL in HTT.
  assert (HTL : torch.mm (torch.t LTi) L = eye n).
  { rewrite <- (mm_teq_r (torch.t LTi) (B := torch.t (torch.t L)) (B' := L))
      by first [rewrite cols_t, rows_t, cols_t; congruence | apply t_t].
    rewrite <- t_mm by (rewrite cols_t; congruence).
    rewrite HTT. apply t_eye. }
  rewrite t_mm by congruence.
  rewrite mm_assoc by (rewrite cols_t, rows_t; congruence).
  rewrite <- (mm_assoc (torch.t LTi)) by (rewrite cols_t; congruence).
  rewrite HTL.
  rewrite (mm_teq_r (torch.t vt) (B := torch.mm (eye n) vt) (B' := vt))
    by first [rewrite cols_t, rows_mm; simpl; congruence | now apply mm_eye_l].
  exact Horth.
Qed.

(** Reversing the columns of V keeps V^T Q V = I. *)
Lemma flip1_orthonormal (n : nat) (Q V : tensor T) :
  square n Q -> square n V ->
  torch.mm (torch.t V) (torch.mm Q V) = eye n ->
  torch.mm (torch.t (torch.flip1 V)) (torch.mm Q (torch.flip1 V)) = eye n.
Proof.
  intros [HrQ HcQ] [HrV HcV] H.
  apply teq_eq; [apply wf_mm | apply wf_eye |].
  split; [|split];
    [rewrite rows_mm, rows_t; unfold torch.flip1; simpl; congruence
    |rewrite !cols_mm; unfold torch.flip1; simpl; congruence|].
  intros i j Hi Hj.
  rewrite rows_mm, rows_t in Hi. rewrite !cols_mm in Hj.
  unfold torch.flip1 in Hi, Hj. rewrite cols_build in Hi, Hj.
  assert (E : get (eye n : tensor T) (n - 1 - i) (n - 1 - j)
              = get (eye n) i j).
  { rewrite !get_eye by lia.
    destruct (Nat.eqb_spec i j) as [->|Hne]; [now rewrite Nat.eqb_refl|].
    destruct (Nat.eqb_spec (n - 1 - i) (n - 1 - j)); [lia | reflexivity]. }
  rewrite <- E, <- H.
  rewrite !get_mm
    by (rewrite ?rows_mm, ?cols_mm, ?rows_t;
        unfold torch.flip1; rewrite ?cols_build; lia).
  rewrite !cols_t. unfold torch.flip1 at 1. rewrite rows_build.
  apply sum_ext. intros k Hk.
  rewrite !get_t by (unfold torch.flip1; rewrite ?rows_build, ?cols_build; lia).
  rewrite get_flip1 by lia. rewrite HcV. f_equal.
  rewrite !get_mm by (unfold torch.flip1; rewrite ?cols_build; lia).
  apply sum_ext. intros l Hl. rewrite get_flip1 by lia. now rewrite HcV.
Qed.

(** Reversing columns commutes with multiplication on the left, and with
    scaling the columns by the reversed weights. *)
Lemma mm_flip1 (A V : tensor T) :
  cols A = rows V ->
  torch.mm A (torch.flip1 V) = torch.flip1 (torch.mm A V).
Proof.
  intros HAV. apply teq_eq; [apply wf_mm | apply wf_build |].
  split; [|split]; [reflexivity | reflexivity |].
  intros i j Hi Hj. rewrite rows_mm in Hi. rewrite cols_mm in Hj.
  unfold torch.flip1 in Hj. rewrite cols_build in Hj.
  rewrite get_mm by (unfold torch.flip1; rewrite ?cols_build; assumption).
  rewrite get_flip1 by (rewrite ?rows_mm, ?cols_mm; assumption).
  rewrite get_mm by (rewrite ?cols_mm; lia). rewrite cols_mm.
  apply sum_ext. intros k Hk. now rewrite get_flip1 by lia.
Qed.

Lemma mm_diag_flip (X : tensor T) (w : vec T) :
  cols X = length w ->
  torch.mm (torch.flip1 X) (torch.diag (torch.flip0 w)) =
  torch.flip1 (torch.mm X (torch.diag w)).
Proof.
  intros HX.
  assert (Hlen : length (torch.flip0 w) = length w)
    by (unfold torch.flip0; apply length_rev).
  apply teq_eq; [apply wf_mm | apply wf_build |].
  split; [|split];
    [reflexivity
    |rewrite cols_mm; unfold torch.diag, torch.flip1;
     rewrite !cols_build; assumption|].
  intros i j Hi Hj. rewrite rows_mm in Hi. rewrite cols_mm in Hj.
  unfold torch.flip1 in Hi. rewrite rows_build in Hi.
  unfold torch.diag in Hj. rewrite cols_build, Hlen in Hj.
  rewrite get_mm_diag
    by (unfold torch.flip1; rewrite ?rows_build, ?cols_build; lia).
  rewrite get_flip1 by lia.
  rewrite get_flip1
    by (rewrite ?rows_mm, ?cols_mm; unfold torch.diag;
        rewrite ?cols_build; lia).
  rewrite vget_flip0 by lia.
  rewrite cols_mm. unfold torch.diag at 2. rewrite cols_build.
  rewrite get_mm_diag by lia. now rewrite HX.
Qed.

End MatrixAlgebraMore.

Section GenEigCholMore.
Context {T : Type} {ST : Scalar T} {ET : ExactScalar T}.

Variable cholesky : tensor T -> result (tensor T).
Variable inv : tensor T -> result (tensor T).
Variable eigh : tensor T -> result (vec T * tensor T).

Hypothesis cholesky_shape : forall Q L,
  cholesky Q = Ok L -> square (rows Q) L.
Hypothesis inv_shape : forall M Mi,
  inv M = Ok Mi -> rows Mi = rows M /\ cols Mi = cols M.
Hypothesis eigh_shape : forall A w V,
  eigh A = Ok (w, V) -> length w = rows A /\ square (rows A) V.
Hypothesis cholesky_spec : forall Q L,
  symmetric Q -> cholesky Q = Ok L -> is_cholesky_factor Q L.
Hypothesis inv_spec : forall M Mi,
  rows M = cols M -> inv M = Ok Mi -> is_inverse M Mi.

(** The eigenvectors the eigensolver returns are orthonormal. *)
Hypothesis eigh_orthonormal : forall A w V,
  symmetric A -> eigh A = Ok (w, V) ->
  torch.mm (torch.t V) V = eye (rows A).

(** On symmetric inputs the columns of flip(LTinv vtilde) are orthonormal
    in the metric Q. *)
Lemma run_metric_orthonormal (n : nat)
    (C Q L Li LTi vt : tensor T) (wa : vec T) :
  square n C -> symmetric C -> square n Q -> symmetric Q ->
  primitives_return cholesky inv eigh C Q L Li LTi wa vt ->
  torch.mm (torch.t (torch.flip1 (torch.mm LTi vt)))
           (torch.mm Q (torch.flip1 (torch.mm LTi vt))) = eye n.
Proof.
  intros HC HCs HQ HQs Hrun.
  destruct (run_shapes cholesky_shape inv_shape eigh_shape HC HQ Hrun)
    as (HL & HLi & HLTi & Hw & Hvt).
  destruct Hrun as (Hch & Hi & Hit & He).
  pose proof (cholesky_spec HQs Hch) as HF.
  assert (HI : is_inverse L Li)
    by (apply inv_spec; [destruct HL; congruence | assumption]).
  assert (HIT : is_inverse (torch.t L) LTi)
    by (apply inv_spec;
        [rewrite rows_t, cols_t; destruct HL; congruence | assumption]).
  assert (Hsym : symmetric (torch.mm Li (torch.mm C LTi))).
  { apply (@reduced_symmetric _ _ _ n); auto.
    now apply (@inverse_of_transpose _ _ _ n L). }
  pose proof (eigh_orthonormal Hsym He) as Horth.
  rewrite rows_mm in Horth. destruct HLi as [HrLi HcLi]. rewrite HrLi in Horth.
  apply flip1_orthonormal with (n := n); try assumption.
  - split; [rewrite rows_mm | rewrite cols_mm];
      destruct HLTi, Hvt; congruence.
  - apply backtransform_orthonormal with (n := n) (L := L);
      first [assumption | now split].
Qed.

(** X7: the eigenvectors returned are orthonormal in the metric Q:
    v^T Q v is the identity matrix, in exact arithmetic and for an
    eigensolver that returns orthonormal eigenvectors. *)
Theorem gen_eig_chol_metric_orthonormal (n : nat)
    (C Q L Li LTi vt : tensor T) (wa : vec T) :
  square n C -> symmetric C -> square n Q -> symmetric Q ->
  primitives_return cholesky inv eigh C Q L Li LTi wa vt ->
  exists w v,
    gen_eig_chol cholesky inv eigh C Q = Ok (w, v) /\
    torch.mm (torch.t v) (torch.mm Q v) = eye n.
Proof.
  intros HC HCs HQ HQs Hrun.
  do 2 eexists.
  split;
    [exact (gen_eig_chol_run cholesky_shape inv_shape eigh_shape HC HQ Hrun)|].
  now apply run_metric_orthonormal with (C := C) (L := L) (Li := Li) (wa := wa).
Qed.

Hypothesis eigh_spec : forall A w V,
  symmetric A -> eigh A = Ok (w, V) -> is_eigendecomposition A w V.

(** X17: the eigenvectors returned diagonalise C: v^T C v = diag(w), in
    exact arithmetic and for an eigensolver that returns orthonormal
    eigenvectors. *)
Theorem gen_eig_chol_diagonalises (n : nat)
    (C Q L Li LTi vt : tensor T) (wa : vec T) :
  square n C -> symmetric C -> square n Q -> symmetric Q ->
  primitives_return cholesky inv eigh C Q L Li LTi wa vt ->
  exists w v,
    gen_eig_chol cholesky inv eigh C Q = Ok (w, v) /\
    torch.mm (torch.t v) (torch.mm C v) = torch.diag w.
Proof.
  intros HC HCs HQ HQs Hrun.
  destruct (run_shapes cholesky_shape inv_shape eigh_shape HC HQ Hrun)
    as (_ & _ & [HrT HcT] & Hw & [Hrv Hcv]).
  destruct (run_eigen_equation cholesky_shape inv_shape eigh_shape
              cholesky_spec inv_spec eigh_spec HC HCs HQ HQs Hrun)
    as [_ Heq].
  pose proof (run_metric_orthonormal HC HCs HQ HQs Hrun) as Horth.
  do 2 eexists.
  split;
    [exact (gen_eig_chol_run cholesky_shape inv_shape eigh_shape HC HQ Hrun)|].
  destruct HC as [HrC HcC]. destruct HQ as [HrQ HcQ].
  set (V := torch.mm LTi vt) in *.
  assert (HrV : rows V = n) by (unfold V; now rewrite rows_mm).
  assert (HcV : cols V = n) by (unfold V; now rewrite cols_mm).
  rewrite (mm_flip1 C V) by congruence.
  rewrite Heq.
  rewrite <- mm_diag_flip by (rewrite cols_mm; congruence).
  rewrite <- (mm_flip1 Q V) by congruence.
  rewrite <- mm_assoc
    by (rewrite cols_t, rows_mm; unfold torch.flip1; simpl; congruence).
  rewrite Horth.
  apply mm_eye_l_wf; [apply wf_build|].
  unfold torch.diag, torch.flip0. now rewrite rows_build, length_rev.
Qed.

(** C1: in exact arithmetic, for symmetric C and symmetric Q on which the
    Cholesky step (and the other primitives) return, gen_eig_chol returns
    n eigenvalues w and an n x n matrix v whose every column v_i satisfies
    C v_i = w_i (Q v_i).  The pairs are those of the eigensolver, back-
    transformed: w_i is its eigenvalue of index n-1-i and v_i is LTinv
    applied to its eigenvector of that index; and, the eigensolver's
    eigenvectors being orthonormal, the columns of v are normalised in the
    metric Q (v^T Q v is the identity), so none of them is zero. *)
Theorem gen_eig_chol_eigenpairs (n : nat)
    (C Q L Li LTi vt : tensor T) (wa : vec T) :
  square n C -> symmetric C -> square n Q -> symmetric Q ->
  primitives_return cholesky inv eigh C Q L Li LTi wa vt ->
  exists w v,
    gen_eig_chol cholesky inv eigh C Q = Ok (w, v) /\
    length w = n /\ square n v /\
    (forall i, i < n ->
       matvec C (col v i) = vscale (vget w i) (matvec Q (col v i)) /\
       vget w i = vget wa (n - 1 - i) /\
       col v i = matvec LTi (col vt (n - 1 - i))) /\
    torch.mm (torch.t v) (torch.mm Q v) = eye n.
Proof.
  intros HC HCs HQ HQs Hrun.
  destruct (run_shapes cholesky_shape inv_shape eigh_shape HC HQ Hrun)
    as (_ & _ & [HrT HcT] & Hw & [Hrv Hcv]).
  destruct (run_eigen_equation cholesky_shape inv_shape eigh_shape
              cholesky_spec inv_spec eigh_spec HC HCs HQ HQs Hrun)
    as [_ Heq].
  pose proof (run_metric_orthonormal HC HCs HQ HQs Hrun) as Horth.
  do 2 eexists.
  split;
    [exact (gen_eig_chol_run cholesky_shape inv_shape eigh_shape HC HQ Hrun)|].
  split; [unfold torch.flip0; now rewrite length_rev|].
  split; [unfold torch.flip1; split; simpl; congruence|].
  split; [|exact Horth].
  intros i Hi.
  destruct HC as [HrC HcC]. destruct HQ as [HrQ HcQ].
  repeat split.
  - rewrite col_flip1 by (rewrite cols_mm; lia).
    rewrite vget_flip0 by lia. rewrite cols_mm, Hcv, Hw.
    rewrite !matvec_col by (rewrite ?rows_mm, ?cols_mm; lia).
    rewrite Heq. unfold col, vscale. rewrite map_vbuild, !rows_mm.
    apply vbuild_ext. intros r Hr.
    rewrite get_mm_diag by (rewrite ?rows_mm, ?cols_mm; lia).
    apply mul_comm.
  - rewrite vget_flip0 by lia. now rewrite Hw.
  - rewrite col_flip1 by (rewrite cols_mm; lia). rewrite cols_mm, Hcv.
    symmetry. apply matvec_col; [congruence | lia].
Qed.

(** X8: only the failure of the Cholesky step is translated.  Once
    Cholesky has returned, an exception raised by an inversion or by
    the eigensolver (a RuntimeError included) surfaces unchanged. *)
Theorem gen_eig_chol_propagates_later_errors (n : nat)
    (C Q L : tensor T) (e : exn) :
  square n C -> square n Q -> cholesky Q = Ok L ->
  inv L = Raise e \/
  (exists Li, inv L = Ok Li /\ inv (torch.t L) = Raise e) \/
  (exists Li LTi, inv L = Ok Li /\ inv (torch.t L) = Ok LTi /\
     eigh (torch.mm Li (torch.mm C LTi)) = Raise e) ->
  gen_eig_chol cholesky inv eigh C Q = Raise e.
Proof.
  intros [HrC HcC] [HrQ HcQ] Hch Hcases. unfold gen_eig_chol.
  rewrite Hch. cbn [bind].
  destruct Hcases as [Hi | [(Li & Hi & Hit) | (Li & LTi & Hi & Hit & He)]].
  - now rewrite Hi.
  - rewrite Hi. cbn [bind]. now rewrite Hit.
  - rewrite Hi. cbn [bind]. rewrite Hit. cbn [bind].
    apply cholesky_shape in Hch. destruct Hch as [HrL HcL].
    pose proof (inv_shape Hi) as [HrLi HcLi].
    pose proof (inv_shape Hit) as [HrT HcT].
    rewrite rows_t in HrT. rewrite cols_t in HcT.
    rewrite (matmul_ok C LTi) by congruence. cbn [bind].
    rewrite matmul_ok by (rewrite rows_mm; congruence). cbn [bind].
    now rewrite He.
Qed.

(** X9: a data matrix C whose number of columns is not the size of Q is
    rejected by the first matrix product, with a RuntimeError, after the
    Cholesky step and both inversions have succeeded. *)
Theorem gen_eig_chol_rejects_misshapen_C (n : nat)
    (C Q L Li LTi : tensor T) :
  square n Q -> cols C <> n ->
  cholesky Q = Ok L -> inv L = Ok Li -> inv (torch.t L) = Ok LTi ->
  exists msg,
    gen_eig_chol cholesky inv eigh C Q = Raise (RuntimeError msg).
Proof.
  intros [HrQ HcQ] HC Hch Hi Hit. eexists. unfold gen_eig_chol.
  rewrite Hch. cbn [bind]. rewrite Hi. cbn [bind]. rewrite Hit. cbn [bind].
  apply cholesky_shape in Hch. destruct Hch as [HrL HcL].
  pose proof (inv_shape Hit) as [HrT HcT]. rewrite rows_t in HrT.
  unfold torch.matmul.
  destruct (Nat.eqb_spec (cols C) (rows LTi)); [congruence | reflexivity].
Qed.

End GenEigCholMore.

(** * stable_symmetric_inverse: further properties *)

Section Binary64Facts.
Local Open Scope float_scope.

Lemma SFcompare_refl (x : spec_float) :
  x <> S754_nan -> SFcompare x x = Some Eq.
Proof.
  destruct x as [s|s| |s m e]; simpl; intros H;
    [reflexivity | destruct s; reflexivity | contradiction |].
  destruct s; rewrite Z.compare_refl, Pos.compare_cont_refl; reflexivity.
Qed.

Lemma is_nan_spec (x : float) : is_nan x = true <-> Prim2SF x = S754_nan.
Proof.
  unfold is_nan. rewrite FloatAxioms.eqb_spec. unfold SFeqb. split.
  - intros H. destruct (Prim2SF x) as [s|s| |s m e] eqn:E;
      try reflexivity; exfalso;
      rewrite SFcompare_refl in H by discriminate; discriminate.
  - intros ->. reflexivity.
Qed.

(** A number that compares below another is not NaN, so equals itself. *)
Lemma leb_eqb_refl (x y : float) : (x <=? y) = true -> (x =? x) = true.
Proof.
  rewrite leb_spec, FloatAxioms.eqb_spec. unfold SFleb, SFeqb. intros H.
  rewrite SFcompare_refl; [reflexivity|].
  intros E. rewrite E in H. discriminate.
Qed.

(** NaN is close to nothing. *)
Lemma isclose_nan (rtol atol a b : float) :
  is_nan a = true -> torch64.isclose rtol atol a b = false.
Proof.
  intros Ha. apply is_nan_spec in Ha. unfold torch64.isclose.
  assert (E1 : (a =? b) = false)
    by (rewrite FloatAxioms.eqb_spec; unfold SFeqb; now rewrite Ha).
  assert (E2 : is_nan (abs (a - b)) = true).
  { apply is_nan_spec. rewrite abs_spec, sub_spec. unfold SF64sub.
    rewrite Ha. reflexivity. }
  rewrite E1. unfold is_finite. rewrite E2. reflexivity.
Qed.

End Binary64Facts.

Section StableInverseMore.
Local Open Scope float_scope.

Variable eigh : tensor float -> result (vec float * tensor float).

(** When every entry is close to its mirror image the assertion passes,
    and what follows raises no assertion error. *)
Lemma past_assertion (A : tensor float) (ret_sqrt : bool) :
  rows A = cols A ->
  (forall M, eigh M <> Raise AssertionError) ->
  all_entries (rows A) (rows A)
    (fun i j => torch64.isclose torch64.default_rtol 1e-6
                  (get A i j) (get A j i)) = true ->
  stable_symmetric_inverse eigh A ret_sqrt <> Raise AssertionError.
Proof.
  intros Hsq Heigh Hall. unfold stable_symmetric_inverse.
  rewrite allclose_transpose by assumption. cbn [bind].
  rewrite Hall. cbn [assert bind].
  destruct (eigh A) as [[w V]|e] eqn:E; cbn [bind].
  - destruct ret_sqrt;
      repeat (apply matmul_not_assertion; intros ?);
      unfold torch.matmul; destruct (_ =? _)%nat; discriminate.
  - intros [= ->]. now apply (Heigh A).
Qed.

(** X10: an input with a NaN entry is always rejected by the symmetry
    assertion: NaN is not close to any number, itself included. *)
Theorem stable_symmetric_inverse_rejects_nan (A : tensor float)
    (ret_sqrt : bool) (i j : nat) :
  rows A = cols A -> (i < rows A)%nat -> (j < rows A)%nat ->
  is_nan (get A i j) = true ->
  stable_symmetric_inverse eigh A ret_sqrt = Raise AssertionError.
Proof.
  intros Hsq Hi Hj Hnan. unfold stable_symmetric_inverse.
  rewrite allclose_transpose by assumption. cbn [bind].
  replace (all_entries _ _ _) with false; [reflexivity|].
  symmetry. apply all_entries_false.
  exists i, j. repeat split; try assumption. now apply isclose_nan.
Qed.

(** X11: an exactly symmetric matrix without NaN entries passes the
    symmetry assertion (the eigensolver raising no assertion error of its
    own). *)
Theorem stable_symmetric_inverse_accepts_symmetric (A : tensor float)
    (ret_sqrt : bool) :
  rows A = cols A ->
  (forall i j, (i < rows A)%nat -> (j < rows A)%nat ->
     get A i j = get A j i /\ is_nan (get A i j) = false) ->
  (forall M, eigh M <> Raise AssertionError) ->
  stable_symmetric_inverse eigh A ret_sqrt <> Raise AssertionError.
Proof.
  intros Hsq Hsym Heigh. apply past_assertion; try assumption.
  apply all_entries_true. intros i j Hi Hj.
  destruct (Hsym i j Hi Hj) as [E Hn]. rewrite <- E.
  unfold torch64.isclose. unfold is_nan in Hn.
  apply negb_false_iff in Hn. now rewrite Hn.
Qed.

(** X12: an input that is neither square nor a single row or column is
    rejected before the assertion is evaluated, with a RuntimeError
    from the comparison of A with its transpose. *)
Theorem stable_symmetric_inverse_rejects_non_square (A : tensor float)
    (ret_sqrt : bool) :
  rows A <> cols A -> rows A <> 1%nat -> cols A <> 1%nat ->
  exists msg,
    stable_symmetric_inverse eigh A ret_sqrt = Raise (RuntimeError msg).
Proof.
  intros Hne Hr Hc. eexists. unfold stable_symmetric_inverse, torch64.allclose.
  rewrite rows_t. unfold torch.broadcast_dim.
  destruct (Nat.eqb_spec (rows A) (cols A)); [contradiction|].
  destruct (Nat.eqb_spec (rows A) 1); [contradiction|].
  destruct (Nat.eqb_spec (cols A) 1); [contradiction|].
  reflexivity.
Qed.

(** X13: every 1 x 1 input [[a]] with a at or below the float32 machine
    epsilon (zero and all negative numbers included) yields [[+infinity]],
    with either value of ret_sqrt. *)
Theorem stable_symmetric_inverse_1x1_small (a : float) (ret_sqrt : bool) :
  (a <=? torch64.float32_eps) = true ->
  eigh (mkTensor 1 1 [[a]]) = Ok ([a], mkTensor 1 1 [[1]]) ->
  stable_symmetric_inverse eigh (mkTensor 1 1 [[a]]) ret_sqrt =
  Ok (mkTensor 1 1 [[infinity]]).
Proof.
  intros Hle Heig. unfold stable_symmetric_inverse.
  rewrite allclose_transpose by reflexivity.
  assert (Hclose : all_entries 1 1
            (fun i j => torch64.isclose torch64.default_rtol 1e-6
                          (get (mkTensor 1 1 [[a]]) i j)
                          (get (mkTensor 1 1 [[a]]) j i)) = true).
  { apply all_entries_true. intros i j Hi Hj.
    replace i with 0%nat by lia. replace j with 0%nat by lia.
    change (get (mkTensor 1 1 [[a]]) 0 0) with a.
    unfold torch64.isclose. now rewrite (leb_eqb_refl Hle). }
  cbn [rows] in Hclose |- *. rewrite Hclose. cbn [bind assert].
  rewrite Heig. cbn [bind].
  assert (Hw : torch64.where_ (torch64.gt [a] torch64.float32_eps) [a]
                 (torch64.zeros_like [a]) = [0]).
  { unfold torch64.where_, torch64.gt, torch64.zeros_like. simpl.
    now rewrite (leb_not_ltb Hle). }
  rewrite Hw. destruct ret_sqrt; vm_compute; reflexivity.
Qed.

End StableInverseMore.

(** * Standardize *)

Section StandardizeFacts.
Context {T : Type} {ST : Scalar T} {FT : Field T}.

Lemma broadcast_dim_one_r (n : nat) : torch.broadcast_dim n 1 = Some n.
Proof.
  unfold torch.broadcast_dim.
  destruct (Nat.eqb_spec n 1) as [->|H]; reflexivity.
Qed.

(** An n x d tensor combined with a 1 x d tensor: the row is broadcast. *)
Lemma elementwise_row (op : T -> T -> T) (A B : tensor T) :
  rows B = 1 -> cols B = cols A ->
  torch_ew.elementwise op A B =
  Ok (build (rows A) (cols A) (fun i j => op (get A i j) (get B 0 j))).
Proof.
  intros Hr Hc. unfold torch_ew.elementwise.
  rewrite Hr, Hc, broadcast_dim_one_r, broadcast_dim_same. f_equal.
  apply build_ext. intros i j Hi Hj.
  rewrite bget_get by assumption. unfold torch.bget.
  rewrite Hr, Hc. rewrite (bidx_lt Hj). reflexivity.
Qed.

(** The layer on an n x d batch with 1 x d statistics: entry (i, j) of the
    result is (x[i][j] - mean[j]) / (stddev[j] + 1 * eps). *)
Lemma forward_rows (mean stddev x : tensor T) (e : T) :
  rows mean = 1 -> cols mean = cols x ->
  rows stddev = 1 -> cols stddev = cols x ->
  forward (Standardize_init mean stddev e) x =
  Ok (build (rows x) (cols x)
        (fun i j => ((get x i j - get mean 0 j) /
                     (get stddev 0 j + one * e))%S)).
Proof.
  intros Hrm Hcm Hrs Hcs.
  unfold forward, Standardize_init, torch_ew.sub, torch_ew.add, torch_ew.div.
  simpl.
  rewrite (elementwise_row _ x mean) by assumption. cbn [bind].
  rewrite (elementwise_row _ stddev) by (simpl; congruence). cbn [bind].
  rewrite elementwise_row by (simpl; congruence).
  rewrite rows_build, cols_build. f_equal.
  apply build_ext. intros i j Hi Hj.
  rewrite !get_build by lia. f_equal. f_equal.
  unfold torch_ew.mul_scalar, torch_ew.ones_like.
  rewrite rows_build, cols_build. rewrite !get_build by lia. reflexivity.
Qed.

(** X16: a batch whose number of columns differs from that of the mean,
    neither being 1, is rejected with a RuntimeError. *)
Theorem forward_rejects_feature_mismatch (self : Standardize T)
    (x : tensor T) :
  cols x <> cols (mean self) -> cols x <> 1 -> cols (mean self) <> 1 ->
  exists msg, forward self x = Raise (RuntimeError msg).
Proof.
  intros Hne Hx Hm. eexists.
  unfold forward, torch_ew.sub, torch_ew.elementwise, torch.broadcast_dim.
  destruct (Nat.eqb_spec (cols x) (cols (mean self))); [contradiction|].
  destruct (Nat.eqb_spec (cols x) 1); [contradiction|].
  destruct (Nat.eqb_spec (cols (mean self)) 1); [contradiction|].
  destruct (if rows x =? rows (mean self) then Some (rows x)
            else if rows x =? 1 then Some (rows (mean self))
            else if rows (mean self) =? 1 then Some (rows x) else None);
    reflexivity.
Qed.

Context {ET : ExactScalar T} {EF : ExactField T}.

(** X14: in exact arithmetic the layer is inverted by scaling and
    shifting back: y[i][j] * (stddev[j] + eps) + mean[j] = x[i][j],
    provided no stddev[j] + eps is zero. *)
Theorem forward_inverted (mean stddev x : tensor T) (e : T) :
  rows mean = 1 -> cols mean = cols x ->
  rows stddev = 1 -> cols stddev = cols x ->
  (forall j, j < cols x -> (get stddev 0 j + e)%S <> zero) ->
  exists y,
    forward (Standardize_init mean stddev e) x = Ok y /\
    rows y = rows x /\ cols y = cols x /\
    forall i j, i < rows x -> j < cols x ->
      (get y i j * (get stddev 0 j + e) + get mean 0 j)%S = get x i j.
Proof.
  intros Hrm Hcm Hrs Hcs Hnz.
  rewrite forward_rows by assumption.
  eexists. split; [reflexivity|]. split; [reflexivity|].
  split; [reflexivity|].
  intros i j Hi Hj. rewrite get_build by assumption.
  rewrite mul_one_l, div_mul by now apply Hnz.
  apply sub_add.
Qed.

(** X15: in exact arithmetic a batch whose rows all equal the mean is
    sent to zero, provided no stddev[j] + eps is zero. *)
Theorem forward_of_mean (mean stddev x : tensor T) (e : T) :
  rows mean = 1 -> cols mean = cols x ->
  rows stddev = 1 -> cols stddev = cols x ->
  (forall j, j < cols x -> (get stddev 0 j + e)%S <> zero) ->
  (forall i j, i < rows x -> j < cols x -> get x i j = get mean 0 j) ->
  forward (Standardize_init mean stddev e) x = Ok (zeros (rows x) (cols x)).
Proof.
  intros Hrm Hcm Hrs Hcs Hnz Hx.
  rewrite forward_rows by assumption. f_equal. unfold zeros.
  apply build_ext. intros i j Hi Hj.
  rewrite Hx, sub_diag, mul_one_l by assumption.
  now apply div_zero_l, Hnz.
Qed.

End StandardizeFacts.

(** * Concrete runs for the further properties *)

Lemma accumulate_unweighted_witness :
  accumulate_correlation_matrices Examples.z_t0 Examples.z_tt
    MoreExamples.ones2 Examples.C00 Examples.C01 Examples.C10 Examples.C11 =
  Ok (tadd Examples.C00 (torch.mm (torch.t Examples.z_t0) Examples.z_t0),
      tadd Examples.C01 (torch.mm (torch.t Examples.z_t0) Examples.z_tt),
      tadd Examples.C10 (torch.mm (torch.t Examples.z_tt) Examples.z_t0),
      tadd Examples.C11 (torch.mm (torch.t Examples.z_tt) Examples.z_tt)).
Proof.
  apply (@accumulate_unweighted Z Z_Scalar Z_ExactScalar);
    try first [reflexivity | split; reflexivity].
  intros k Hk. simpl in Hk. destruct k as [|[|k]]; [reflexivity.. | lia].
Defined.

Lemma accumulate_zero_weights_witness :
  accumulate_correlation_matrices Examples.z_t0 Examples.z_tt
    MoreExamples.zeros2 Examples.C00 Examples.C01 Examples.C10 Examples.C11 =
  Ok (Examples.C00, Examples.C01, Examples.C10, Examples.C11).
Proof.
  apply (@accumulate_zero_weights Z Z_Scalar Z_ExactScalar 2);
    try first [reflexivity | apply wf_concrete_2x2 | split; reflexivity].
  intros k Hk. simpl in Hk. destruct k as [|[|k]]; [reflexivity.. | lia].
Defined.

Lemma symmetric_Examples_C00 : symmetric Examples.C00.
Proof. concrete_symmetric. Qed.

Lemma symmetric_Examples_C11 : symmetric Examples.C11.
Proof. concrete_symmetric. Qed.

Lemma accumulate_keeps_symmetry_witness :
  exists C00' C01' C10' C11',
    accumulate_correlation_matrices Examples.z_t0 Examples.z_tt
      Examples.pathweight Examples.C00 Examples.C01 Examples.C10 Examples.C11
    = Ok (C00', C01', C10', C11') /\
    symmetric C00' /\ symmetric C11'.
Proof.
  apply (@accumulate_keeps_symmetry Z Z_Scalar Z_ExactScalar 2);
    first [reflexivity | split; reflexivity
          | exact symmetric_Examples_C00 | exact symmetric_Examples_C11].
Defined.

Lemma Examples_C10_transposed : teq Examples.C10 (torch.t Examples.C01).
Proof.
  split; [reflexivity|]. split; [reflexivity|].
  intros i j Hi Hj. simpl in Hi, Hj.
  destruct i as [|[|i]]; destruct j as [|[|j]];
    first [reflexivity | lia].
Qed.

Lemma accumulate_keeps_transposition_witness :
  exists C00' C01' C10' C11',
    accumulate_correlation_matrices Examples.z_t0 Examples.z_tt
      Examples.pathweight Examples.C00 Examples.C01 Examples.C10 Examples.C11
    = Ok (C00', C01', C10', C11') /\
    C10' = torch.t C01'.
Proof.
  apply (@accumulate_keeps_transposition Z Z_Scalar Z_ExactScalar 2);
    first [reflexivity | split; reflexivity | exact Examples_C10_transposed].
Defined.

Lemma accumulate_order_independent_witness :
  exists R,
    (' (C00', C01', C10', C11') <-
       accumulate_correlation_matrices Examples.z_t0 Examples.z_tt
         Examples.pathweight
         Examples.C00 Examples.C01 Examples.C10 Examples.C11 ;;
     accumulate_correlation_matrices Examples.z_t0_b Examples.z_tt_b
       Examples.pathweight_b C00' C01' C10' C11')
    = Ok R /\
    (' (C00', C01', C10', C11') <-
       accumulate_correlation_matrices Examples.z_t0_b Examples.z_tt_b
         Examples.pathweight_b
         Examples.C00 Examples.C01 Examples.C10 Examples.C11 ;;
     accumulate_correlation_matrices Examples.z_t0 Examples.z_tt
       Examples.pathweight C00' C01' C10' C11')
    = Ok R.
Proof.
  apply (@accumulate_order_independent Z Z_Scalar Z_ExactScalar 2);
    first [reflexivity | split; reflexivity].
Defined.

Lemma accumulate_accumulator_shapes_witness :
  exists msg,
    accumulate_correlation_matrices Examples.z_t0 Examples.z_tt
      Examples.pathweight
      MoreExamples.C_3x3 Examples.C01 Examples.C10 Examples.C11
    = Raise (RuntimeError msg).
Proof.
  exact (@accumulate_accumulator_shapes Z Z_Scalar 2
           Examples.z_t0 Examples.z_tt Examples.pathweight
           MoreExamples.C_3x3 Examples.C01 Examples.C10 Examples.C11
           eq_refl eq_refl eq_refl eq_refl).
Defined.

Lemma int_eigh_orthonormal (A : tensor Z) (w : vec Z) (V : tensor Z) :
  symmetric A -> IntegerPrimitives.eigh A = Ok (w, V) ->
  torch.mm (torch.t V) V = eye (rows A).
Proof.
  intros _. unfold IntegerPrimitives.eigh.
  destruct (_ && _); [|discriminate]. intros [= <- <-].
  rewrite t_eye. apply mm_eye_l_wf; [apply wf_eye | reflexivity].
Qed.

Lemma gen_eig_chol_metric_orthonormal_witness :
  exists w v,
    gen_eig_chol
      IntegerPrimitives.cholesky IntegerPrimitives.inv IntegerPrimitives.eigh
      IntegerPrimitives.C_sym IntegerPrimitives.Q_id = Ok (w, v) /\
    torch.mm (torch.t v) (torch.mm IntegerPrimitives.Q_id v) = eye 2.
Proof.
  apply (@gen_eig_chol_metric_orthonormal Z Z_Scalar Z_ExactScalar
           IntegerPrimitives.cholesky IntegerPrimitives.inv
           IntegerPrimitives.eigh
           int_cholesky_shape int_inv_shape int_eigh_shape
           int_cholesky_spec int_inv_spec int_eigh_orthonormal
           2 IntegerPrimitives.C_sym IntegerPrimitives.Q_id
           (eye 2) (eye 2) (eye 2) (eye 2) [2; 7]%Z).
  - split; reflexivity.
  - exact symmetric_C_sym.
  - split; reflexivity.
  - exact symmetric_Q_id.
  - exact primitives_return_C_sym.
Defined.

Lemma gen_eig_chol_propagates_later_errors_witness :
  gen_eig_chol
    IntegerPrimitives.cholesky IntegerPrimitives.inv IntegerPrimitives.eigh
    MoreExamples.C_descending IntegerPrimitives.Q_id
  = Raise (RuntimeError "linalg.eigh: the algorithm failed to converge").
Proof.
  apply (@gen_eig_chol_propagates_later_errors Z Z_Scalar
           IntegerPrimitives.cholesky IntegerPrimitives.inv
           IntegerPrimitives.eigh int_cholesky_shape int_inv_shape
           2 MoreExamples.C_descending IntegerPrimitives.Q_id (eye 2)).
  - split; reflexivity.
  - split; reflexivity.
  - reflexivity.
  - right. right. exists (eye 2), (eye 2). repeat split.
Defined.

Lemma gen_eig_chol_rejects_misshapen_C_witness :
  exists msg,
    gen_eig_chol
      IntegerPrimitives.cholesky IntegerPrimitives.inv IntegerPrimitives.eigh
      MoreExamples.C_2x3 IntegerPrimitives.Q_id
    = Raise (RuntimeError msg).
Proof.
  apply (@gen_eig_chol_rejects_misshapen_C Z Z_Scalar
           IntegerPrimitives.cholesky IntegerPrimitives.inv
           IntegerPrimitives.eigh int_cholesky_shape int_inv_shape
           2 MoreExamples.C_2x3 IntegerPrimitives.Q_id
           (eye 2) (eye 2) (eye 2)).
  - split; reflexivity.
  - simpl. lia.
  - reflexivity.
  - reflexivity.
  - reflexivity.
Defined.

Lemma stable_symmetric_inverse_rejects_nan_witness :
  stable_symmetric_inverse Float64Examples.eigh_table MoreExamples.A_nan false
  = Raise AssertionError.
Proof.
  apply (@stable_symmetric_inverse_rejects_nan Float64Examples.eigh_table
           MoreExamples.A_nan false 0 1);
    first [reflexivity | simpl; lia].
Defined.

Lemma stable_symmetric_inverse_accepts_symmetric_witness :
  stable_symmetric_inverse Float64Examples.eigh_table
    Float64Examples.A_singular false <> Raise AssertionError.
Proof.
  apply (@stable_symmetric_inverse_accepts_symmetric
           Float64Examples.eigh_table Float64Examples.A_singular false).
  - reflexivity.
  - intros i j Hi Hj. simpl in Hi, Hj.
    destruct i as [|[|i]]; destruct j as [|[|j]];
      first [split; reflexivity | lia].
  - exact eigh_table_no_assertion.
Defined.

Lemma stable_symmetric_inverse_rejects_non_square_witness :
  exists msg,
    stable_symmetric_inverse Float64Examples.eigh_table
      MoreExamples.A_2x3 false = Raise (RuntimeError msg).
Proof.
  apply (@stable_symmetric_inverse_rejects_non_square
           Float64Examples.eigh_table MoreExamples.A_2x3 false);
    simpl; lia.
Defined.

Lemma stable_symmetric_inverse_1x1_small_witness :
  stable_symmetric_inverse Float64Examples.eigh_table
    (mkTensor 1 1 [[0%float]]) true =
  Ok (mkTensor 1 1 [[infinity]]).
Proof.
  apply (@stable_symmetric_inverse_1x1_small Float64Examples.eigh_table
           0%float true); reflexivity.
Defined.

Lemma statistics_nonzero (j : nat) :
  j < 2 ->
  (get MoreExamples.stddev_q 0 j + MoreExamples.eps_q)%S <> zero.
Proof.
  intros Hj H. apply (f_equal Qcanon.this) in H.
  destruct j as [|[|j]]; [vm_compute in H; discriminate.. | lia].
Qed.

Lemma forward_inverted_witness :
  exists y,
    forward (Standardize_init MoreExamples.mean_q MoreExamples.stddev_q
               MoreExamples.eps_q) MoreExamples.x_q = Ok y /\
    rows y = 2 /\ cols y = 2 /\
    forall i j, i < 2 -> j < 2 ->
      (get y i j * (get MoreExamples.stddev_q 0 j + MoreExamples.eps_q)
       + get MoreExamples.mean_q 0 j)%S = get MoreExamples.x_q i j.
Proof.
  apply (@forward_inverted Qcanon.Qc ExactRationals.Qc_Scalar
           ExactRationals.Qc_Field ExactRationals.Qc_ExactScalar
           ExactRationals.Qc_ExactField
           MoreExamples.mean_q MoreExamples.stddev_q MoreExamples.x_q
           MoreExamples.eps_q);
    first [reflexivity | exact statistics_nonzero].
Defined.

Lemma forward_of_mean_witness :
  forward (Standardize_init MoreExamples.mean_q MoreExamples.stddev_q
             MoreExamples.eps_q) MoreExamples.x_mean_q = Ok (zeros 2 2).
Proof.
  apply (@forward_of_mean Qcanon.Qc ExactRationals.Qc_Scalar
           ExactRationals.Qc_Field ExactRationals.Qc_ExactScalar
           ExactRationals.Qc_ExactField
           MoreExamples.mean_q MoreExamples.stddev_q MoreExamples.x_mean_q
           MoreExamples.eps_q);
    try first [reflexivity | exact statistics_nonzero].
  intros i j Hi Hj. simpl in Hi, Hj.
  destruct i as [|[|i]]; destruct j as [|[|j]]; first [reflexivity | lia].
Defined.

Lemma forward_rejects_feature_mismatch_witness :
  exists msg,
    forward MoreExamples.layer_f MoreExamples.A_2x3
    = Raise (RuntimeError msg).
Proof.
  apply (@forward_rejects_feature_mismatch float float_Scalar float_Field
           MoreExamples.layer_f MoreExamples.A_2x3); simpl; lia.
Defined.

Lemma gen_eig_chol_diagonalises_witness :
  exists w v,
    gen_eig_chol
      IntegerPrimitives.cholesky IntegerPrimitives.inv IntegerPrimitives.eigh
      IntegerPrimitives.C_sym IntegerPrimitives.Q_id = Ok (w, v) /\
    torch.mm (torch.t v) (torch.mm IntegerPrimitives.C_sym v) = torch.diag w.
Proof.
  apply (@gen_eig_chol_diagonalises Z Z_Scalar Z_ExactScalar
           IntegerPrimitives.cholesky IntegerPrimitives.inv
           IntegerPrimitives.eigh
           int_cholesky_shape int_inv_shape int_eigh_shape
           int_cholesky_spec int_inv_spec int_eigh_orthonormal int_eigh_spec
           2 IntegerPrimitives.C_sym IntegerPrimitives.Q_id
           (eye 2) (eye 2) (eye 2) (eye 2) [2; 7]%Z).
  - split; reflexivity.
  - exact symmetric_C_sym.
  - split; reflexivity.
  - exact symmetric_Q_id.
  - exact primitives_return_C_sym.
Defined.

Lemma gen_eig_chol_eigenpairs_witness :
  exists w v,
    gen_eig_chol
      IntegerPrimitives.cholesky IntegerPrimitives.inv IntegerPrimitives.eigh
      IntegerPrimitives.C_sym IntegerPrimitives.Q_id = Ok (w, v) /\
    length w = 2 /\ square 2 v /\
    (forall i, i < 2 ->
       matvec IntegerPrimitives.C_sym (col v i) =
       vscale (vget w i) (matvec IntegerPrimitives.Q_id (col v i)) /\
       vget w i = vget [2; 7]%Z (2 - 1 - i) /\
       col v i = matvec (eye 2) (col (eye 2) (2 - 1 - i))) /\
    torch.mm (torch.t v) (torch.mm IntegerPrimitives.Q_id v) = eye 2.
Proof.
  apply (@gen_eig_chol_eigenpairs Z Z_Scalar Z_ExactScalar
           IntegerPrimitives.cholesky IntegerPrimitives.inv
           IntegerPrimitives.eigh
           int_cholesky_shape int_inv_shape int_eigh_shape
           int_cholesky_spec int_inv_spec int_eigh_orthonormal int_eigh_spec
           2 IntegerPrimitives.C_sym IntegerPrimitives.Q_id
           (eye 2) (eye 2) (eye 2) (eye 2) [2; 7]%Z).
  - split; reflexivity.
  - exact symmetric_C_sym.
  - split; reflexivity.
  - exact symmetric_Q_id.
  - exact primitives_return_C_sym.
Defined.
